(** * The step executor of motia: [callStepFile] and the Node runner

    A shallow embedding of [packages/core/src/call-step-file.ts] and of
    [packages/core/src/node/node-runner.ts].  The parent side is a state
    machine driven by the events of one worker process (RPC requests, stdout,
    stderr, close, error); the worker side is the list of actions the runner
    performs before it exits. *)

From stdpp Require Import gmap strings list fin_maps pretty.
From Stdlib Require Import ZArith.

Set Warnings "-register-all".
Open Scope Z_scope.
Open Scope string_scope.

(** ** JavaScript values *)

(** The logger handed to the executor and the child derived from it by
    [logger.child({ step })]. *)
Record Logger := { logger_base : string; logger_step : option string }.

(** Values that travel over the RPC channel or sit in the executor's
    variables.  An object keeps its properties in insertion order. *)
Inductive JsVal :=
| VUndefined
| VNull
| VBool (b : bool)
| VNum (z : Z)
| VStr (s : string)
| VArr (items : list JsVal)
| VObj (fields : list (string * JsVal))
| VLogger (l : Logger).

Abbreviation JsObj := (list (string * JsVal)).

(** [o[k]] on the property list of an object; an absent property reads as
    [undefined]. *)
Fixpoint obj_get (o : JsObj) (k : string) : JsVal :=
  match o with
  | [] => VUndefined
  | (k', v) :: rest => if decide (k' = k) then v else obj_get rest k
  end.

(** [o[k] = v]: an existing property keeps its place, a new one goes last. *)
Fixpoint obj_set (o : JsObj) (k : string) (v : JsVal) : JsObj :=
  match o with
  | [] => [(k, v)]
  | (k', v') :: rest =>
      if decide (k' = k) then (k', v) :: rest else (k', v') :: obj_set rest k v
  end.

(** [{ ...input }]: the own properties of an object, copied in order into a
    fresh object.  [null], [undefined], booleans and numbers have none; the
    emit handler, the one place that spreads, gets there with an object only
    (see [allowed_topic_of_object]). *)
Definition spread (input : JsVal) : JsObj :=
  match input with
  | VObj fields => fields
  | _ => []
  end.

(** An [Error] object (or the error of a failed child process, which carries
    a [code]). *)
Record JsError := { err_name : string; err_message : string; err_code : option string }.

Definition Error (message : string) : JsError :=
  {| err_name := "Error"; err_message := message; err_code := None |}.

Definition TypeError (message : string) : JsError :=
  {| err_name := "TypeError"; err_message := message; err_code := None |}.

(** [`${error}`], that is [Error.prototype.toString]. *)
Definition error_to_string (e : JsError) : string :=
  if decide (err_name e = "") then err_message e
  else if decide (err_message e = "") then err_name e
  else err_name e +:+ ": " +:+ err_message e.

(** Result of running a piece of JavaScript that may throw. *)
Inductive Completion (A : Type) :=
| Normal (a : A)
| Throw (e : JsError).
Arguments Normal {A} a.
Arguments Throw {A} e.

(** [input.k] for an arbitrary value: [null] and [undefined] have no
    properties and reading one throws; the properties of arrays, strings and
    other primitives are not among the names read here. *)
Definition prop (input : JsVal) (k : string) : Completion JsVal :=
  match input with
  | VUndefined =>
      Throw (TypeError ("Cannot read properties of undefined (reading '" +:+ k +:+ "')"))
  | VNull => Throw (TypeError ("Cannot read properties of null (reading '" +:+ k +:+ "')"))
  | VObj fields => Normal (obj_get fields k)
  | _ => Normal VUndefined
  end.

(** [s.endsWith(suffix)]. *)
Definition endsWith (s suffix : string) : bool :=
  bool_decide (String.list_ascii_of_string suffix `suffix_of` String.list_ascii_of_string s).

(** [`${code}`] for an integer exit code. *)
Definition number_to_string (n : Z) : string := pretty n.

(** ** Steps ([types.ts]) *)

(** Modelled from the spec: the [Step] and [StepConfig] types of [./types],
    which are not part of the sources at hand.  An [emits] entry is a bare
    topic or an object with a [topic]. *)
Inductive Emit :=
| EmitTopic (topic : string)
| EmitObject (topic : string) (label : option string) (conditional : option bool).

Inductive StepConfig :=
| ApiConfig (name path method : string) (emits : list Emit) (flows : list string)
| EventConfig (name : string) (subscribes : list string) (emits : list Emit) (flows : list string)
| CronConfig (name cron : string) (emits : list Emit) (flows : list string)
| NoopConfig (name : string) (virtualEmits : list Emit) (virtualSubscribes : list string)
             (flows : list string).

Record Step := { filePath : string; version : string; config : StepConfig }.

Definition config_type (c : StepConfig) : string :=
  match c with
  | ApiConfig _ _ _ _ _ => "api"
  | EventConfig _ _ _ _ => "event"
  | CronConfig _ _ _ _ => "cron"
  | NoopConfig _ _ _ _ => "noop"
  end.

Definition config_name (c : StepConfig) : string :=
  match c with
  | ApiConfig n _ _ _ _ | EventConfig n _ _ _ | CronConfig n _ _ _ | NoopConfig n _ _ _ => n
  end.

Definition config_flows (c : StepConfig) : list string :=
  match c with
  | ApiConfig _ _ _ _ f | EventConfig _ _ _ f | CronConfig _ _ _ f | NoopConfig _ _ _ f => f
  end.

(** A noop step has no [emits]. *)
Definition config_emits (c : StepConfig) : list Emit :=
  match c with
  | ApiConfig _ _ _ e _ | EventConfig _ _ e _ | CronConfig _ _ e _ => e
  | NoopConfig _ _ _ _ => []
  end.

Definition emit_topic (e : Emit) : string :=
  match e with
  | EmitTopic t => t
  | EmitObject t _ _ => t
  end.

(** Modelled from the spec: [isAllowedToEmit] of [./utils], which is not part
    of the sources at hand: the emitted topic must be the topic string of one
    of the step's declared [emits].  A topic that is not a string equals
    none of them. *)
Definition isAllowedToEmit (step : Step) (emit : JsVal) : bool :=
  match emit with
  | VStr topic => bool_decide (topic ∈ emit_topic <$> config_emits (config step))
  | _ => false
  end.

(** ** Collaborators of the executor *)

(** What the executor is given from outside: the platform functions it calls,
    and the state manager and the stream objects, which act on a store of
    their own. *)
Class Host := {
  JSON_parse : string → Completion JsVal;
  JSON_stringify : JsVal → string;
  path_join : list string → string;
  dirname : string;
  (** [process.env._MOTIA_TEST_MODE] *)
  MOTIA_TEST_MODE : option string;
  Store : Type;
  (** the [InternalStateManager] passed as [options.state] *)
  state_get : JsVal → JsVal → Store → JsVal;
  state_set : JsVal → JsVal → JsVal → Store → Store * JsVal;
  state_delete : JsVal → JsVal → Store → Store * JsVal;
  state_clear : JsVal → Store → Store;
  state_getGroup : JsVal → Store → JsVal;
  (** the object made by the factory of the stream of that name *)
  stream_get : string → JsVal → JsVal → Store → JsVal;
  stream_set : string → JsVal → JsVal → JsVal → Store → Store * JsVal;
  stream_delete : string → JsVal → JsVal → Store → Store * JsVal;
  stream_getGroup : string → JsVal → Store → JsVal;
}.

(** Modelled from the spec: [LockedData] of [./locked-data], which is not part
    of the sources at hand; [getStreams()] returns an object with one factory
    per declared stream, given here by its keys in order. *)
Record LockedData := { getStreams : list string }.

(** Calls the executor makes on the process manager, the logger, the printer,
    the event manager and the analytics, in the order they happen. *)
Inductive Effect :=
| NewProcessManager (command : string) (args : list string)
| Spawn
| Kill
| Close
| TrackEvent (name : string) (props : JsObj)
| LoggerLog (input : JsVal)
| LoggerInfo (text : string)
| LoggerError (text : string)
| PrintInvalidEmit (step : Step) (topic : JsVal)
| EventManagerEmit (event : JsObj) (file : string)
| StreamFactory (name : string)
| Reply (method : string) (response : Completion JsVal)
| Unhandled (method : string).

(** The promise returned by [callStepFile]: settled at most once. *)
Inductive Reason :=
| RString (s : string)
| RError (e : JsError).

Inductive Promise :=
| Pending
| Resolved (v : JsVal)
| Rejected (r : Reason).

Definition resolve (v : JsVal) (p : Promise) : Promise :=
  match p with Pending => Resolved v | _ => p end.

Definition reject (r : Reason) (p : Promise) : Promise :=
  match p with Pending => Rejected r | _ => p end.

Record CallStepFileOptions := {
  step : Step;
  logger : Logger;
  traceId : string;
  lockedData : LockedData;
  data : JsVal;
  contextInFirstArg : bool;
}.

Record Runner := { runner : string; command : string; args : list string }.

Section Executor.
Context `{Host}.

(** [getLanguageBasedRunner] *)
Definition getLanguageBasedRunner (stepFilePath : string) : Completion Runner :=
  let isPython := endsWith stepFilePath ".py" in
  let isRuby := endsWith stepFilePath ".rb" in
  let isNode := endsWith stepFilePath ".js" || endsWith stepFilePath ".ts" in
  if isPython then
    let pythonRunner := path_join [dirname; "python"; "python-runner.py"] in
    Normal {| runner := pythonRunner; command := "python"; args := [] |}
  else if isRuby then
    let rubyRunner := path_join [dirname; "ruby"; "ruby-runner.rb"] in
    Normal {| runner := rubyRunner; command := "ruby"; args := [] |}
  else if isNode then
    if bool_decide (MOTIA_TEST_MODE = Some "true") then
      let nodeRunner := path_join [dirname; "node"; "node-runner.ts"] in
      Normal {| runner := nodeRunner; command := "node"; args := ["-r"; "ts-node/register"] |}
    else
      let nodeRunner := path_join [dirname; "node"; "node-runner.js"] in
      Normal {| runner := nodeRunner; command := "node"; args := [] |}
  else Throw (Error ("Unsupported file extension " +:+ stepFilePath)).

(** The variables of one call: [result], the promise, the store behind
    [state] and the streams, and the calls made so far. *)
Record Exec := {
  result : JsVal;
  promise : Promise;
  store : Store;
  effects : list Effect;
}.

Definition perform (e : Effect) (ex : Exec) : Exec :=
  {| result := result ex; promise := promise ex; store := store ex;
     effects := effects ex ++ [e] |}.

Definition set_result (v : JsVal) (ex : Exec) : Exec :=
  {| result := v; promise := promise ex; store := store ex; effects := effects ex |}.

Definition set_store (s : Store) (ex : Exec) : Exec :=
  {| result := result ex; promise := promise ex; store := s; effects := effects ex |}.

Definition settle (f : Promise → Promise) (ex : Exec) : Exec :=
  {| result := result ex; promise := f (promise ex); store := store ex;
     effects := effects ex |}.

(** A handler registered with [processManager.handler]. *)
Definition Handler : Type := JsVal → Exec → Exec * Completion JsVal.

(** Reads the named properties of [input] and passes them on; the first
    read that throws ends the handler. *)
Definition with_prop (input : JsVal) (k : string)
    (body : JsVal → Exec → Exec * Completion JsVal) : Exec → Exec * Completion JsVal :=
  fun ex =>
    match prop input k with
    | Normal v => body v ex
    | Throw e => (ex, Throw e)
    end.

Definition reads (f : Store → JsVal) : Exec → Exec * Completion JsVal :=
  fun ex => (ex, Normal (f (store ex))).

Definition writes (f : Store → Store * JsVal) : Exec → Exec * Completion JsVal :=
  fun ex => let '(s, v) := f (store ex) in (set_store s ex, Normal v).

Definition calls (e : Effect) : Exec → Exec * Completion JsVal :=
  fun ex => (perform e ex, Normal VUndefined).

Section Handlers.
Variable options : CallStepFileOptions.

(** [options.logger.child({ step: step.config.name })] *)
Definition child_logger : Logger :=
  {| logger_base := logger_base (logger options);
     logger_step := Some (config_name (config (step options))) |}.

Definition flows_value : JsVal := VArr (VStr <$> config_flows (config (step options))).

Definition close_handler : Handler := fun _ => calls Kill.

Definition log_handler : Handler := fun input => calls (LoggerLog input).

Definition state_get_handler : Handler := fun input =>
  with_prop input "traceId" (fun t =>
  with_prop input "key" (fun k =>
  reads (state_get t k))).

Definition state_set_handler : Handler := fun input =>
  with_prop input "traceId" (fun t =>
  with_prop input "key" (fun k =>
  with_prop input "value" (fun v =>
  writes (state_set t k v)))).

Definition state_delete_handler : Handler := fun input =>
  with_prop input "traceId" (fun t =>
  with_prop input "key" (fun k =>
  writes (state_delete t k))).

Definition state_clear_handler : Handler := fun input =>
  with_prop input "traceId" (fun t =>
  writes (fun s => (state_clear t s, VUndefined))).

Definition state_getGroup_handler : Handler := fun input =>
  with_prop input "groupId" (fun g =>
  reads (state_getGroup g)).

Definition result_handler : Handler := fun input ex =>
  (set_result input ex, Normal VUndefined).

(** The event handed to [eventManager.emit]:
    [{ ...input, traceId, flows: step.config.flows, logger }]. *)
Definition emitted_event (input : JsVal) : JsObj :=
  obj_set (obj_set (obj_set (spread input)
    "traceId" (VStr (traceId options)))
    "flows" flows_value)
    "logger" (VLogger child_logger).

Definition emit_handler : Handler := fun input =>
  with_prop input "topic" (fun topic =>
    if negb (isAllowedToEmit (step options) topic) then
      calls (PrintInvalidEmit (step options) topic)
    else
      calls (EventManagerEmit (emitted_event input) (filePath (step options)))).

Definition stream_get_handler (name : string) : Handler := fun input =>
  with_prop input "groupId" (fun g =>
  with_prop input "id" (fun i =>
  reads (stream_get name g i))).

Definition stream_set_handler (name : string) : Handler := fun input =>
  with_prop input "groupId" (fun g =>
  with_prop input "id" (fun i =>
  with_prop input "data" (fun d =>
  writes (stream_set name g i d)))).

Definition stream_delete_handler (name : string) : Handler := fun input =>
  with_prop input "groupId" (fun g =>
  with_prop input "id" (fun i =>
  writes (stream_delete name g i))).

Definition stream_getGroup_handler (name : string) : Handler := fun input =>
  with_prop input "groupId" (fun g =>
  reads (stream_getGroup name g)).

(** [processManager.handler(method, fn)] *)
Definition register (method : string) (fn : Handler)
    (handlers : gmap string Handler) : gmap string Handler :=
  <[method := fn]> handlers.

(** The body of the [forEach] over [Object.entries(streamConfig)]. *)
Definition register_stream (handlers : gmap string Handler) (name : string)
    : gmap string Handler :=
  register ("streams." +:+ name +:+ ".getGroup") (stream_getGroup_handler name)
  (register ("streams." +:+ name +:+ ".delete") (stream_delete_handler name)
  (register ("streams." +:+ name +:+ ".set") (stream_set_handler name)
  (register ("streams." +:+ name +:+ ".get") (stream_get_handler name)
  handlers))).

(** All the handlers registered once the process is spawned. *)
Definition step_handlers : gmap string Handler :=
  foldl register_stream
    (register "emit" emit_handler
    (register "result" result_handler
    (register "state.getGroup" state_getGroup_handler
    (register "state.clear" state_clear_handler
    (register "state.delete" state_delete_handler
    (register "state.set" state_set_handler
    (register "state.get" state_get_handler
    (register "log" log_handler
    (register "close" close_handler ∅)))))))))
    (getStreams (lockedData options)).
End Handlers.

(** ** The life of one invocation *)

(** What the worker process and the process manager report to the parent. *)
Inductive ProcEvent :=
| SpawnResolved
| SpawnRejected (error : JsError)
| Request (method : string) (input : JsVal)
| Stdout (text : string)
| Stderr (text : string)
| ProcessClose (code : option Z)
| ProcessError (error : JsError).

Inductive Phase :=
| NotSpawned
| Spawning
| Running.

(** One call of [callStepFile]: its variables, the runner it chose, and the
    handlers its process manager holds. *)
Record Invocation := {
  exec : Exec;
  phase : Phase;
  process : option Runner;
  handlers : gmap string Handler;
}.

Definition with_exec (f : Exec → Exec) (inv : Invocation) : Invocation :=
  {| exec := f (exec inv); phase := phase inv; process := process inv;
     handlers := handlers inv |}.

(** Modelled from the spec: [processManager.close()] of the process manager,
    which is not part of the sources at hand: it tears down the handler
    registrations. *)
Definition pm_close (inv : Invocation) : Invocation :=
  {| exec := perform Close (exec inv); phase := phase inv; process := process inv;
     handlers := ∅ |}.

(** Modelled from the spec: the routing of an RPC request by the process
    manager, which is not part of the sources at hand: the handler registered
    under the method name runs and its outcome is the response; a request
    for a method without handler is a protocol violation, on which the
    channel is closed and the worker killed. *)
Definition dispatch (method : string) (input : JsVal) (inv : Invocation) : Invocation :=
  match handlers inv !! method with
  | Some fn =>
      let '(ex, response) := fn input (exec inv) in
      with_exec (fun _ => perform (Reply method response) ex) inv
  | None =>
      with_exec (perform Kill) (pm_close (with_exec (perform (Unhandled method)) inv))
  end.

Section Invocation.
Variable options : CallStepFileOptions.

Definition invocation_envelope : JsVal :=
  VObj [("data", data options);
        ("flows", flows_value options);
        ("traceId", VStr (traceId options));
        ("contextInFirstArg", VBool (contextInFirstArg options));
        ("streams", VArr ((fun name => VObj [("name", VStr name)])
                            <$> getStreams (lockedData options)))].

(** [callStepFile] up to the call of [processManager.spawn()].  An error
    thrown in the executor of the promise rejects the promise. *)
Definition callStepFile (s : Store) : Invocation :=
  let streamConfig := getStreams (lockedData options) in
  let jsonData := JSON_stringify invocation_envelope in
  match getLanguageBasedRunner (filePath (step options)) with
  | Throw e =>
      {| exec := {| result := VUndefined; promise := Rejected (RError e);
                    store := s; effects := [] |};
         phase := NotSpawned; process := None; handlers := ∅ |}
  | Normal r =>
      {| exec := {| result := VUndefined; promise := Pending; store := s;
                    effects :=
                      [NewProcessManager (command r)
                         (args r ++ [runner r; filePath (step options); jsonData]);
                       TrackEvent "step_execution_started"
                         [("language", VStr (command r));
                          ("type", VStr (config_type (config (step options))));
                          ("streams", VNum (Z.of_nat (length streamConfig)))];
                       Spawn] |};
         phase := Spawning; process := Some r; handlers := ∅ |}
  end.

Definition execution_error (props : JsObj) : Effect :=
  TrackEvent "step_execution_error"
    ([("stepName", VStr (config_name (config (step options))));
      ("traceId", VStr (traceId options))] ++ props).

Definition error_code_value (error : JsError) : JsVal :=
  match err_code error with Some c => VStr c | None => VUndefined end.

(** The callback of [spawn().then]: the handlers and the listeners. *)
Definition onSpawned (inv : Invocation) : Invocation :=
  {| exec := foldl (fun ex name => perform (StreamFactory name) ex) (exec inv)
               (getStreams (lockedData options));
     phase := Running; process := process inv;
     handlers := step_handlers options |}.

(** The callback of [spawn().catch]. *)
Definition onSpawnFailed (error : JsError) (inv : Invocation) : Invocation :=
  {| exec := settle (reject (RString ("Failed to spawn process: " +:+ error_to_string error)))
               (perform (execution_error [("code", error_code_value error);
                                          ("message", VStr (err_message error))])
                  (exec inv));
     phase := NotSpawned; process := process inv; handlers := handlers inv |}.

Definition onStdout (text : string) (ex : Exec) : Exec :=
  match JSON_parse text with
  | Normal message => perform (LoggerLog message) ex
  | Throw _ => perform (LoggerInfo text) ex
  end.

Definition onStderr (text : string) (ex : Exec) : Exec :=
  perform (LoggerError text) ex.

(** [code !== 0 && code !== null] *)
Definition is_failure_code (code : option Z) : bool :=
  match code with
  | Some n => negb (n =? 0)%Z
  | None => false
  end.

Definition code_value (code : option Z) : JsVal :=
  match code with Some n => VNum n | None => VNull end.

(** [`${code}`] *)
Definition code_to_string (code : option Z) : string :=
  match code with Some n => number_to_string n | None => "null" end.

Definition onProcessClose (code : option Z) (inv : Invocation) : Invocation :=
  let inv := pm_close inv in
  if is_failure_code code then
    with_exec (fun ex =>
      settle (reject (RString ("Process exited with code " +:+ code_to_string code)))
        (perform (execution_error [("code", code_value code)]) ex)) inv
  else with_exec (fun ex => settle (resolve (result ex)) ex) inv.

Definition runner_command (inv : Invocation) : string :=
  match process inv with Some r => command r | None => "" end.

Definition onProcessError (error : JsError) (inv : Invocation) : Invocation :=
  let inv := pm_close inv in
  if bool_decide (err_code error = Some "ENOENT") then
    with_exec (fun ex =>
      settle (reject (RString ("Executable " +:+ runner_command inv +:+ " not found")))
        (perform (execution_error [("code", error_code_value error);
                                   ("message", VStr (err_message error))]) ex)) inv
  else with_exec (settle (reject (RError error))) inv.

(** One event of the worker process, as the parent sees it.  The
    listeners exist from the moment the process has spawned. *)
Definition on_event (inv : Invocation) (ev : ProcEvent) : Invocation :=
  match phase inv, ev with
  | Spawning, SpawnResolved => onSpawned inv
  | Spawning, SpawnRejected error => onSpawnFailed error inv
  | Running, Request method input => dispatch method input inv
  | Running, Stdout text => with_exec (onStdout text) inv
  | Running, Stderr text => with_exec (onStderr text) inv
  | Running, ProcessClose code => onProcessClose code inv
  | Running, ProcessError error => onProcessError error inv
  | _, _ => inv
  end.

Definition run (inv : Invocation) (evs : list ProcEvent) : Invocation :=
  foldl on_event inv evs.

(** The outcome of a call whose process goes through [evs]. *)
Definition outcome (s : Store) (evs : list ProcEvent) : Promise :=
  promise (exec (run (callStepFile s) evs)).
End Invocation.
End Executor.

(** ** The Node runner ([node-runner.ts]) *)

(** The operations of [context.streams[name]]. *)
Inductive WorkerStreamOp :=
| OpGet
| OpUpdate
| OpDelete
| OpCreate.

Definition op_name (op : WorkerStreamOp) : string :=
  match op with
  | OpGet => "get"
  | OpUpdate => "update"
  | OpDelete => "delete"
  | OpCreate => "create"
  end.

(** What the runner does, as the parent and the operating system see it. *)
Inductive WorkerAction :=
| SenderInit
| SenderSend (method : string) (params : JsVal)
| SenderClose
| CallHandler (args : list JsVal)
| ConsoleError (label : string) (error : option JsError)
| Exit (code : Z).

(** [StateStreamConfig] as the envelope carries it. *)
Record StateStreamConfig := { stream_name : string }.

(** The parsed envelope, read through the casts of the runner. *)
Record RunnerEvent := {
  event_data : JsVal;
  event_traceId : JsVal;
  event_flows : JsVal;
  event_contextInFirstArg : bool;
  event_streams : option (list StateStreamConfig);
}.

(** The [context] handed to the user's handler, as far as the runner builds it
    itself: [emit] and [streams].  (Its [logger] and [state] come from classes
    that are not part of the sources at hand.) *)
Record Context := {
  context_traceId : JsVal;
  context_flows : JsVal;
  context_streams : list string;
}.

(** A use the handler makes of its context. *)
Inductive ContextCall :=
| CallEmit (data : JsVal)
| CallStream (name : string) (op : WorkerStreamOp) (id : JsVal) (data : JsVal).

(** A run of user code: what it did, and how it ended. *)
Definition Script : Type := list WorkerAction * Completion JsVal.

(** A user handler: given its arguments, the context calls it makes in order
    and the value it returns or the error it throws.  The responses of the
    parent are not fed back to it. *)
Definition UserHandler : Type := list JsVal → list ContextCall * Completion JsVal.

Definition Middleware : Type := JsVal → Context → Script → Script.

Inductive Export :=
| NotAFunction (v : JsVal)
| Function (f : UserHandler).

Record ModuleConfig := { middleware : option (list Middleware) }.

Record UserModule := { module_handler : Export; module_config : option ModuleConfig }.

(** The method name behind [context.streams[name][op]]. *)
Definition stream_method (name : string) (op : WorkerStreamOp) : string :=
  "streams." +:+ name +:+ "." +:+ op_name op.

Definition stream_params (op : WorkerStreamOp) (id data : JsVal) : JsVal :=
  match op with
  | OpGet | OpDelete => VObj [("id", id)]
  | OpUpdate | OpCreate => VObj [("id", id); ("data", data)]
  end.

(** The [reduce] that builds [context.streams]: one entry per declared
    stream. *)
Definition build_streams (streamsConfig : option (list StateStreamConfig)) : list string :=
  foldl (fun (acc : list string) streams =>
           if bool_decide (stream_name streams ∈ acc) then acc
           else (acc ++ [stream_name streams])%list)
        [] (default [] streamsConfig).

(** One context call: [emit] sends, a stream operation sends under the method
    name of its stream, and a stream that was not declared has no entry in
    [context.streams], so reaching for its operations throws. *)
Definition context_call (context : Context) (c : ContextCall) : Completion WorkerAction :=
  match c with
  | CallEmit data => Normal (SenderSend "emit" data)
  | CallStream name op id data =>
      if bool_decide (name ∈ context_streams context) then
        Normal (SenderSend (stream_method name op) (stream_params op id data))
      else
        Throw (TypeError ("Cannot read properties of undefined (reading '" +:+ op_name op +:+ "')"))
  end.

Fixpoint context_calls (context : Context) (cs : list ContextCall) (finish : Completion JsVal)
    : Script :=
  match cs with
  | [] => ([], finish)
  | c :: rest =>
      match context_call context c with
      | Normal a => let '(acts, r) := context_calls context rest finish in (a :: acts, r)
      | Throw e => ([], Throw e)
      end
  end.

(** Modelled from the spec: [composeMiddleware] of [./middleware-compose],
    which is not part of the sources at hand: a fold over the list with a
    terminal [next] that invokes the handler. *)
Definition composeMiddleware (middlewares : list Middleware)
    : JsVal → Context → Script → Script :=
  fun req context next => foldr (fun m k => m req context k) next middlewares.

Definition context_value (context : Context) : JsVal :=
  VObj [("traceId", context_traceId context); ("flows", context_flows context)].

(** [runTypescriptModule]; [loaded] is what [require(path.resolve(filePath))]
    gave. *)
Definition runTypescriptModule (filePath : string) (event : RunnerEvent)
    (loaded : Completion UserModule) : list WorkerAction :=
  let failed (acts : list WorkerAction) (error : JsError) :=
    (acts ++ [ConsoleError "Error running TypeScript module:" (Some error); Exit 1])%list in
  match loaded with
  | Throw error => failed [] error
  | Normal module =>
      match module_handler module with
      | NotAFunction _ =>
          failed [] (Error ("Function handler not found in module " +:+ filePath))
      | Function handler =>
          let context :=
            {| context_traceId := event_traceId event;
               context_flows := event_flows event;
               context_streams := build_streams (event_streams event) |} in
          match module_config module with
          | None =>
              failed [SenderInit]
                (TypeError "Cannot read properties of undefined (reading 'middleware')")
          | Some cfg =>
              let middlewares := default [] (middleware cfg) in
              let composedMiddleware := composeMiddleware middlewares in
              let handlerFn : Script :=
                let args :=
                  if event_contextInFirstArg event then [context_value context]
                  else [event_data event; context_value context] in
                let '(acts, r) := context_calls context (handler args).1 (handler args).2 in
                (CallHandler args :: acts, r) in
              match composedMiddleware (event_data event) context handlerFn with
              | (acts, Throw error) => failed (SenderInit :: acts) error
              | (acts, Normal result) =>
                  SenderInit :: (acts ++ [SenderSend "result" result; SenderClose; Exit 0])%list
              end
          end
      end
  end.


(** ** Worker and parent together *)

(** The text [console.error] writes for its arguments. *)
Definition console_text (label : string) (error : option JsError) : string :=
  match error with
  | Some e => label +:+ " " +:+ error_to_string e
  | None => label
  end.

(** What the parent observes of one action of the runner: a request on the
    RPC channel, a line on stderr, or the end of the process. *)
Definition worker_event (a : WorkerAction) : list ProcEvent :=
  match a with
  | SenderSend method params => [Request method params]
  | ConsoleError label error => [Stderr (console_text label error)]
  | Exit code => [ProcessClose (Some code)]
  | SenderInit | SenderClose | CallHandler _ => []
  end.

Definition worker_events (acts : list WorkerAction) : list ProcEvent :=
  acts ≫= worker_event.

(** ** An in-memory host *)

(** Structural equality of values, used to compare the keys of the stores. *)
Fixpoint JsVal_eqb (a b : JsVal) : bool :=
  match a, b with
  | VUndefined, VUndefined | VNull, VNull => true
  | VBool x, VBool y => bool_decide (x = y)
  | VNum x, VNum y => bool_decide (x = y)
  | VStr x, VStr y => bool_decide (x = y)
  | VArr xs, VArr ys =>
      (fix all2 (xs ys : list JsVal) : bool :=
         match xs, ys with
         | [], [] => true
         | x :: xs, y :: ys => JsVal_eqb x y && all2 xs ys
         | _, _ => false
         end) xs ys
  | VObj xs, VObj ys =>
      (fix all2 (xs ys : list (string * JsVal)) : bool :=
         match xs, ys with
         | [], [] => true
         | (k, x) :: xs, (k', y) :: ys => bool_decide (k = k') && JsVal_eqb x y && all2 xs ys
         | _, _ => false
         end) xs ys
  | VLogger x, VLogger y =>
      bool_decide (logger_base x = logger_base y) && bool_decide (logger_step x = logger_step y)
  | _, _ => false
  end.

(** Modelled from the spec: the state store and the stream registry, whose
    implementations are not part of the sources at hand.  Flow state maps
    [(traceId, key)] to a value and stream items map [(stream, groupId, id)]
    to a value; [get] gives [null] for an absent key, [set] is last write
    wins and gives the stored value, [delete] is idempotent, [clear] removes
    every key of the trace, [getGroup] lists the values of a group. *)
Record MemoryStore := {
  flow_state : list (JsVal * JsVal * JsVal);
  stream_items : list (string * JsVal * JsVal * JsVal);
}.

Definition same_state_key (t k : JsVal) (entry : JsVal * JsVal * JsVal) : bool :=
  JsVal_eqb entry.1.1 t && JsVal_eqb entry.1.2 k.

Definition same_stream_key (name : string) (g i : JsVal)
    (entry : string * JsVal * JsVal * JsVal) : bool :=
  bool_decide (entry.1.1.1 = name) && JsVal_eqb entry.1.1.2 g && JsVal_eqb entry.1.2 i.

Definition memory_state_get (t k : JsVal) (m : MemoryStore) : JsVal :=
  match List.find (same_state_key t k) (flow_state m) with
  | Some entry => entry.2
  | None => VNull
  end.

Definition memory_state_delete (t k : JsVal) (m : MemoryStore) : MemoryStore :=
  {| flow_state := List.filter (fun e => negb (same_state_key t k e)) (flow_state m);
     stream_items := stream_items m |}.

Definition memory_state_set (t k v : JsVal) (m : MemoryStore) : MemoryStore :=
  {| flow_state := (t, k, v) :: flow_state (memory_state_delete t k m);
     stream_items := stream_items m |}.

Definition memory_state_clear (t : JsVal) (m : MemoryStore) : MemoryStore :=
  {| flow_state := List.filter (fun e => negb (JsVal_eqb e.1.1 t)) (flow_state m);
     stream_items := stream_items m |}.

Definition memory_state_getGroup (g : JsVal) (m : MemoryStore) : JsVal :=
  VArr (snd <$> List.filter (fun e => JsVal_eqb e.1.1 g) (flow_state m)).

Definition memory_stream_get (name : string) (g i : JsVal) (m : MemoryStore) : JsVal :=
  match List.find (same_stream_key name g i) (stream_items m) with
  | Some entry => entry.2
  | None => VNull
  end.

Definition memory_stream_delete (name : string) (g i : JsVal) (m : MemoryStore) : MemoryStore :=
  {| flow_state := flow_state m;
     stream_items := List.filter (fun e => negb (same_stream_key name g i e)) (stream_items m) |}.

Definition memory_stream_set (name : string) (g i d : JsVal) (m : MemoryStore) : MemoryStore :=
  {| flow_state := flow_state m;
     stream_items := (name, g, i, d) :: stream_items (memory_stream_delete name g i m) |}.

Definition memory_stream_getGroup (name : string) (g : JsVal) (m : MemoryStore) : JsVal :=
  VArr (snd <$> List.filter (fun e => bool_decide (e.1.1.1 = name) && JsVal_eqb e.1.1.2 g)
                  (stream_items m)).

(** A host for running the executor on examples: the in-memory stores, paths
    joined with a slash, and a [JSON.parse] that knows the literal [null]
    only, so that every other output of a worker is logged as plain text. *)
Definition memory_host : Host := {|
  JSON_parse text :=
    if decide (text = "null") then Normal VNull
    else Throw {| err_name := "SyntaxError"; err_message := "Unexpected token";
                  err_code := None |};
  JSON_stringify _ := "{}";
  path_join parts := String.concat "/" parts;
  dirname := "/motia/core/dist";
  MOTIA_TEST_MODE := None;
  Store := MemoryStore;
  state_get := memory_state_get;
  state_set t k v m := (memory_state_set t k v m, v);
  state_delete t k m := (memory_state_delete t k m, VUndefined);
  state_clear := memory_state_clear;
  state_getGroup := memory_state_getGroup;
  stream_get := memory_stream_get;
  stream_set name g i d m := (memory_stream_set name g i d m, d);
  stream_delete name g i m := (memory_stream_delete name g i m, VUndefined);
  stream_getGroup := memory_stream_getGroup;
|}.

(** ** Sample steps *)

Definition sample_logger : Logger := {| logger_base := "root"; logger_step := None |}.

Definition order_step : Step :=
  {| filePath := "steps/order.step.ts"; version := "1";
     config := EventConfig "order" ["a"] [EmitTopic "b"; EmitObject "c" None None] ["shop"] |}.

Definition step_at (path : string) : Step :=
  {| filePath := path; version := "1"; config := config order_step |}.

Definition options_for (s : Step) (trace : string) (streams : list string)
    : CallStepFileOptions :=
  {| step := s; logger := sample_logger; traceId := trace;
     lockedData := {| getStreams := streams |}; data := VObj [("x", VNum 1)];
     contextInFirstArg := false |}.

Definition order_options : CallStepFileOptions := options_for order_step "T1" ["s"].

(** A store in which another flow, [T2], has written its [user]. *)
Definition sample_store : MemoryStore :=
  {| flow_state := [(VStr "T2", VStr "user", VStr "secret")]; stream_items := [] |}.

Definition sample_event : RunnerEvent :=
  {| event_data := VObj [("x", VNum 1)]; event_traceId := VStr "T1";
     event_flows := VArr [VStr "shop"]; event_contextInFirstArg := false;
     event_streams := Some [{| stream_name := "s" |}] |}.

(** A module whose handler updates an item of the stream [s] and returns. *)
Definition updating_module : UserModule :=
  {| module_handler :=
       Function (fun _ => ([CallStream "s" OpUpdate (VStr "1") (VObj [("n", VNum 1)])],
                           Normal VUndefined));
     module_config := Some {| middleware := None |} |}.


(** ** Notions used in the statements *)

(** The characters of a string from its end, to compare endings. *)
Definition reversed (s : string) : list Ascii.ascii :=
  reverse (String.list_ascii_of_string s).

Section Notions.
Context `{Host}.
Variable options : CallStepFileOptions.

(** The process has spawned and the handlers of the step are in place. *)
Definition live (inv : Invocation) : Prop :=
  phase inv = Running ∧ handlers inv = step_handlers options.

Definition declared_topic (topic : JsVal) : Prop :=
  ∃ t, topic = VStr t ∧ t ∈ emit_topic <$> config_emits (config (step options)).

(** What holds of every emission handed to the event manager, of every
    invalid-emit warning and of every answer to a [result] request. *)
Definition effect_ok (e : Effect) : Prop :=
  match e with
  | EventManagerEmit event file =>
      file = filePath (step options) ∧
      declared_topic (obj_get event "topic") ∧
      obj_get event "traceId" = VStr (traceId options) ∧
      obj_get event "flows" = flows_value options ∧
      obj_get event "logger" = VLogger (child_logger options)
  | PrintInvalidEmit s topic => s = step options ∧ ¬ declared_topic topic
  | Reply method response => method = "result" → response = Normal VUndefined
  | _ => True
  end.

(** What holds of the handler registered under the method [m]: it leaves
    the promise alone, only [result] assigns the variable [result], and the
    calls it makes are in order. *)
Definition handler_spec (m : string) (fn : Handler) : Prop :=
  ∀ input ex,
    promise (fn input ex).1 = promise ex ∧
    result (fn input ex).1 = (if decide (m = "result") then input else result ex) ∧
    ∃ new, effects (fn input ex).1 = (effects ex ++ new)%list ∧ Forall effect_ok new.

(** Events of a running worker that the parent has a handler or a
    listener for, short of the end of the process. *)
Definition handled (ev : ProcEvent) : Prop :=
  match ev with
  | Request method _ => is_Some (step_handlers options !! method)
  | Stdout _ | Stderr _ => True
  | _ => False
  end.

(** What holds of an invocation at every moment: its registry is empty or
    holds the handlers of the step, and the calls made so far are in
    order. *)
Definition well_formed (inv : Invocation) : Prop :=
  (handlers inv = ∅ ∨ handlers inv = step_handlers options) ∧
  Forall effect_ok (effects (exec inv)).
End Notions.

(** The variable [result] after the events, starting from [init]: the input
    of the last [result] request. *)
Definition latest_result (init : JsVal) (evs : list ProcEvent) : JsVal :=
  foldl (fun acc ev =>
           match ev with
           | Request method input => if decide (method = "result") then input else acc
           | _ => acc
           end) init evs.

(** The value of the last [result] request among the events, [undefined]
    when there is none. *)
Definition last_result (evs : list ProcEvent) : JsVal := latest_result VUndefined evs.

Definition result_requests (evs : list ProcEvent) : list JsVal :=
  evs ≫= (fun ev =>
            match ev with
            | Request method input => if decide (method = "result") then [input] else []
            | _ => []
            end).

(** ** Further notions: the registry, the traffic of a worker, emissions *)

(** The method names registered whatever the streams are. *)
Definition fixed_methods : list string :=
  ["close"; "log"; "state.get"; "state.set"; "state.delete"; "state.clear";
   "state.getGroup"; "result"; "emit"].

(** The endings of the four method names registered for a stream. *)
Definition stream_endings : list string := [".get"; ".set"; ".delete"; ".getGroup"].

(** The method names registered for the streams of the given names. *)
Definition stream_methods (names : list string) : list string :=
  names ≫= (fun name => (fun ending => "streams." +:+ name +:+ ending) <$> stream_endings).

(** What a running worker can send: requests and output, short of the end of
    the process. *)
Definition traffic (ev : ProcEvent) : Prop :=
  match ev with
  | Request _ _ | Stdout _ | Stderr _ => True
  | _ => False
  end.

(** The events handed to the event manager, in order. *)
Definition forwarded (effects : list Effect) : list (JsObj * string) :=
  effects ≫= (fun e =>
                match e with
                | EventManagerEmit event file => [(event, file)]
                | _ => []
                end).

(** The invalid emits printed, in order. *)
Definition printed (effects : list Effect) : list (Step * JsVal) :=
  effects ≫= (fun e =>
                match e with
                | PrintInvalidEmit s topic => [(s, topic)]
                | _ => []
                end).

(** What the emit handler does with the payload of one request: the event it
    forwards, if any. *)
Definition forwarded_for (options : CallStepFileOptions) (ev : ProcEvent)
    : list (JsObj * string) :=
  match ev with
  | Request method input =>
      if decide (method = "emit") then
        match prop input "topic" with
        | Normal topic =>
            if isAllowedToEmit (step options) topic
            then [(emitted_event options input, filePath (step options))]
            else []
        | Throw _ => []
        end
      else []
  | _ => []
  end.

(** The requests that may write the store: the writing operations of the
    state manager and of the streams. *)
Definition may_write (ev : ProcEvent) : Prop :=
  match ev with
  | Request method _ =>
      method ∈ ["state.set"; "state.delete"; "state.clear"] ∨
      ∃ name, method = "streams." +:+ name +:+ ".set" ∨
              method = "streams." +:+ name +:+ ".delete"
  | _ => False
  end.

Section FurtherNotions.
Context `{Host}.
Variable options : CallStepFileOptions.

(** The handler registered for a stream under the given ending. *)
Definition stream_handler (ending name : string) : Handler :=
  if decide (ending = ".get") then stream_get_handler name
  else if decide (ending = ".set") then stream_set_handler name
  else if decide (ending = ".delete") then stream_delete_handler name
  else stream_getGroup_handler name.

(** What holds of the handler registered under the method [m] beyond
    [handler_spec]: it forwards what [forwarded_for] says and nothing else,
    and it leaves the store alone unless [m] is a writing method. *)
Definition handler_frame (m : string) (fn : Handler) : Prop :=
  ∀ input ex,
    forwarded (effects (fn input ex).1)
      = (forwarded (effects ex) ++ forwarded_for options (Request m input))%list ∧
    (¬ may_write (Request m input) → store (fn input ex).1 = store ex).
End FurtherNotions.

(** The context [runTypescriptModule] builds from the envelope, and the
    arguments it calls the handler with. *)
Definition runner_context (event : RunnerEvent) : Context :=
  {| context_traceId := event_traceId event;
     context_flows := event_flows event;
     context_streams := build_streams (event_streams event) |}.

Definition handler_arguments (event : RunnerEvent) : list JsVal :=
  if event_contextInFirstArg event then [context_value (runner_context event)]
  else [event_data event; context_value (runner_context event)].

(** How often the user's handler was called. *)
Definition handler_calls (acts : list WorkerAction) : nat :=
  length (List.filter (fun a => match a with CallHandler _ => true | _ => false end) acts).

(** ** The Python environment ([activate-python-env.ts]) *)

(** What [activatePythonVenv] takes from the platform: [path.join],
    [path.delimiter], [process.platform === 'win32'], [fs.existsSync], and
    [findPythonSitePackagesDir] of [./python-version-utils]. *)
Class Platform := {
  pathJoin : list string → string;
  delimiter : string;
  win32 : bool;
  existsSync : string → bool;
  findPythonSitePackagesDir : string → string → string;
}.

Record VenvConfig := {
  baseDir : string;
  isVerbose : option bool;
  pythonVersion : option string;
}.

(** A call of [internalLogger.info] or [internalLogger.error]. *)
Inductive LogLine :=
| LogInfo (args : list string)
| LogError (args : list string).

(** The part of the Node process the activation touches: [process.env] and
    the lines logged. *)
Record NodeProcess := { env : gmap string string; logged : list LogLine }.

(** The rest of [s] after the prefix [pattern], if [s] starts with it. *)
Fixpoint strip_prefix (pattern s : string) : option string :=
  match pattern, s with
  | EmptyString, _ => Some s
  | String a pattern', String b s' =>
      if decide (a = b) then strip_prefix pattern' s' else None
  | String _ _, EmptyString => None
  end.

(** [s.replace(pattern, replacement)] for a string pattern and a replacement
    without [$]: the first occurrence is replaced. *)
Fixpoint replace (s pattern replacement : string) : string :=
  match strip_prefix pattern s with
  | Some rest => replacement +:+ rest
  | None =>
      match s with
      | EmptyString => EmptyString
      | String c s' => String c (replace s' pattern replacement)
      end
  end.

(** [`${process.env.PATH}`]: an unset variable reads as [undefined]. *)
Definition env_text (value : option string) : string := default "undefined" value.

Section PythonEnv.
Context `{Platform}.

Definition venvPath (config : VenvConfig) : string := pathJoin [baseDir config; "python_modules"].

Definition venvBinPath (config : VenvConfig) : string :=
  pathJoin [venvPath config; if win32 then "Scripts" else "bin"].

Definition sitePackagesPath (config : VenvConfig) : string :=
  let libPath := pathJoin [venvPath config; "lib"] in
  let actualPythonVersionPath :=
    findPythonSitePackagesDir libPath (default "3.13" (pythonVersion config)) in
  pathJoin [venvPath config; "lib"; actualPythonVersionPath; "site-packages"].

Definition pythonPath (config : VenvConfig) : string :=
  if win32 then pathJoin [venvBinPath config; "python.exe"]
  else pathJoin [venvBinPath config; "python"].

Definition relativePath (config : VenvConfig) (path : string) : string :=
  replace path (baseDir config) "<projectDir>".

(** [activatePythonVenv] *)
Definition activatePythonVenv (config : VenvConfig) (p : NodeProcess) : NodeProcess :=
  let started := (logged p ++ [LogInfo ["Activating Python environment"]])%list in
  if existsSync (venvPath config) then
    {| env :=
         delete "PYTHONHOME"
           (<["PYTHON_SITE_PACKAGES" := sitePackagesPath config]>
           (<["VIRTUAL_ENV" := venvPath config]>
           (<["PATH" := venvBinPath config +:+ delimiter +:+ env_text (env p !! "PATH")]>
           (env p))));
       logged :=
         if default false (isVerbose config) then
           (started ++
              [LogInfo ["Using Python"; relativePath config (pythonPath config)];
               LogInfo ["Site-packages path"; relativePath config (sitePackagesPath config)]])%list
         else started |}
  else
    {| env := env p;
       logged :=
         (started ++
            [LogError ["Python virtual environment not found in python_modules/"];
             LogError ["Please run `motia install` to create a new virtual environment"]])%list |}.
End PythonEnv.

(** A platform for examples: POSIX, paths joined with a slash, a virtual
    environment present under [/app] only. *)
Definition sample_platform : Platform := {|
  pathJoin parts := String.concat "/" parts;
  delimiter := ":";
  win32 := false;
  existsSync path := bool_decide (path = "/app/python_modules");
  findPythonSitePackagesDir _ version := "python" +:+ version;
|}.

Definition sample_venv : VenvConfig :=
  {| baseDir := "/app"; isVerbose := Some true; pythonVersion := None |}.

Definition sample_process : NodeProcess :=
  {| env := {["PATH" := "/usr/bin"; "PYTHONHOME" := "/opt/python"; "HOME" := "/root"]};
     logged := [] |}.

(** A module whose handler emits two events, one to a declared topic and one
    to an undeclared topic, and returns [7]. *)
Definition emitting_module : UserModule :=
  {| module_handler :=
       Function (fun _ => ([CallEmit (VObj [("topic", VStr "zz"); ("data", VNull)]);
                            CallEmit (VObj [("topic", VStr "b"); ("data", VNum 1)])],
                           Normal (VNum 7)));
     module_config := Some {| middleware := None |} |}.

(** A module whose handler emits to a declared topic and then throws. *)
Definition crashing_module : UserModule :=
  {| module_handler :=
       Function (fun _ => ([CallEmit (VObj [("topic", VStr "b"); ("data", VNum 1)])],
                           Throw (Error "boom")));
     module_config := Some {| middleware := None |} |}.

(** A module that exports a handler but no [config]. *)
Definition configless_module : UserModule :=
  {| module_handler := Function (fun _ => ([], Normal VNull)); module_config := None |}.

(** ** Runner selection *)

Lemma endsWith_suffix (s suffix : string) :
  endsWith s suffix = true ↔
  String.list_ascii_of_string suffix `suffix_of` String.list_ascii_of_string s.
Proof. unfold endsWith. apply bool_decide_eq_true. Qed.

(** A path has one ending of a given length. *)
Lemma endsWith_exclusive (s a b : string) :
  length (String.list_ascii_of_string a) = length (String.list_ascii_of_string b) →
  a ≠ b →
  endsWith s a = true → endsWith s b = false.
Proof.
  intros Hlen Hne Ha. apply endsWith_suffix in Ha as [ka Ha].
  apply bool_decide_eq_false. intros [kb Hb]. apply Hne.
  rewrite Ha in Hb. apply app_inj_2 in Hb as [_ Hb]; [| done].
  rewrite <- (String.string_of_list_ascii_of_string a),
          <- (String.string_of_list_ascii_of_string b).
  by rewrite Hb.
Qed.

Lemma not_spawned_ignores `{Host} options (inv : Invocation) (evs : list ProcEvent) :
  phase inv = NotSpawned → run options inv evs = inv.
Proof.
  intros Hphase. induction evs as [| ev evs IH]; [done |].
  unfold run in *. simpl. unfold on_event at 2. rewrite Hphase.
  by destruct ev.
Qed.

(** C6: the runner is chosen by the ending of the step file path: [python]
    for [.py], [ruby] for [.rb], [node] for [.js] and [.ts]; with any other
    ending the call is rejected with the error "Unsupported file extension",
    and no process manager is made nor a process spawned, whatever happens
    afterwards. *)
Theorem runner_by_extension `{Host} (path : string) :
  (endsWith path ".py" = true →
     getLanguageBasedRunner path =
       Normal {| runner := path_join [dirname; "python"; "python-runner.py"];
                 command := "python"; args := [] |}) ∧
  (endsWith path ".rb" = true →
     getLanguageBasedRunner path =
       Normal {| runner := path_join [dirname; "ruby"; "ruby-runner.rb"];
                 command := "ruby"; args := [] |}) ∧
  (endsWith path ".js" = true ∨ endsWith path ".ts" = true →
     ∃ r, getLanguageBasedRunner path = Normal r ∧ command r = "node" ∧
          (runner r = path_join [dirname; "node"; "node-runner.js"] ∨
           runner r = path_join [dirname; "node"; "node-runner.ts"])) ∧
  (endsWith path ".py" = false → endsWith path ".rb" = false →
   endsWith path ".js" = false → endsWith path ".ts" = false →
     ∀ options s evs, filePath (step options) = path →
       let inv := run options (callStepFile options s) evs in
       promise (exec inv) = Rejected (RError (Error ("Unsupported file extension " +:+ path))) ∧
       effects (exec inv) = []).
Proof.
  split; [| split; [| split]].
  - intros Hpy. unfold getLanguageBasedRunner. by rewrite Hpy.
  - intros Hrb. unfold getLanguageBasedRunner.
    rewrite (endsWith_exclusive path ".rb" ".py"); [| done | done | done].
    by rewrite Hrb.
  - intros Hnode. unfold getLanguageBasedRunner.
    assert (endsWith path ".py" = false) as ->.
    { destruct Hnode as [Hn | Hn];
        [apply (endsWith_exclusive path ".js") | apply (endsWith_exclusive path ".ts")];
        done. }
    assert (endsWith path ".rb" = false) as ->.
    { destruct Hnode as [Hn | Hn];
        [apply (endsWith_exclusive path ".js") | apply (endsWith_exclusive path ".ts")];
        done. }
    assert (endsWith path ".js" || endsWith path ".ts" = true) as ->.
    { destruct Hnode as [-> | ->]; [done | by rewrite orb_true_r]. }
    case_bool_decide; eexists; (split; [reflexivity |]); simpl; auto.
  - intros Hpy Hrb Hjs Hts options s evs Hpath inv. subst inv.
    assert (callStepFile options s =
            {| exec := {| result := VUndefined;
                          promise := Rejected (RError (Error ("Unsupported file extension " +:+ path)));
                          store := s; effects := [] |};
               phase := NotSpawned; process := None; handlers := ∅ |}) as ->.
    { unfold callStepFile, getLanguageBasedRunner. by rewrite Hpath, Hpy, Hrb, Hjs, Hts. }
    by rewrite not_spawned_ignores.
Qed.

Lemma runner_by_extension_witness :
  (endsWith "steps/a.step.py" ".py" = true ∧
   getLanguageBasedRunner (H := memory_host) "steps/a.step.py" =
     Normal {| runner := "/motia/core/dist/python/python-runner.py";
               command := "python"; args := [] |}) ∧
  (endsWith "steps/a.step.rb" ".rb" = true ∧
   getLanguageBasedRunner (H := memory_host) "steps/a.step.rb" =
     Normal {| runner := "/motia/core/dist/ruby/ruby-runner.rb";
               command := "ruby"; args := [] |}) ∧
  (endsWith "steps/a.step.ts" ".ts" = true ∧
   ∃ r, getLanguageBasedRunner (H := memory_host) "steps/a.step.ts" = Normal r ∧
        command r = "node" ∧
        (runner r = "/motia/core/dist/node/node-runner.js" ∨
         runner r = "/motia/core/dist/node/node-runner.ts")) ∧
  (endsWith "steps/a.step.go" ".py" = false ∧
   promise (exec (run (H := memory_host) (options_for (step_at "steps/a.step.go") "T1" [])
                    (callStepFile (H := memory_host)
                       (options_for (step_at "steps/a.step.go") "T1" []) sample_store)
                    [SpawnResolved; ProcessClose (Some 0)])) =
     Rejected (RError (Error "Unsupported file extension steps/a.step.go"))).
Proof.
  split; [| split; [| split]].
  - split; [reflexivity |].
    apply (runner_by_extension (H := memory_host) "steps/a.step.py"). reflexivity.
  - split; [reflexivity |].
    apply (runner_by_extension (H := memory_host) "steps/a.step.rb"). reflexivity.
  - split; [reflexivity |].
    apply (runner_by_extension (H := memory_host) "steps/a.step.ts"). right. reflexivity.
  - split; [reflexivity |].
    apply (runner_by_extension (H := memory_host) "steps/a.step.go");
      reflexivity.
Defined.

(** ** Objects and method names *)

Lemma obj_get_set_eq (o : JsObj) (k : string) (v : JsVal) :
  obj_get (obj_set o k v) k = v.
Proof.
  induction o as [| [k' v'] o IH]; simpl.
  - by rewrite decide_True.
  - destruct (decide (k' = k)) as [-> | Hne]; simpl.
    + by rewrite decide_True.
    + by rewrite decide_False.
Qed.

Lemma obj_get_set_ne (o : JsObj) (k k' : string) (v : JsVal) :
  k ≠ k' → obj_get (obj_set o k v) k' = obj_get o k'.
Proof.
  intros Hne. induction o as [| [k0 v0] o IH]; simpl.
  - by rewrite decide_False.
  - destruct (decide (k0 = k)) as [-> | Hne0]; simpl.
    + by rewrite !decide_False.
    + destruct (decide (k0 = k')); [done | apply IH].
Qed.

Lemma list_ascii_of_append (s t : string) :
  String.list_ascii_of_string (s +:+ t) =
  (String.list_ascii_of_string s ++ String.list_ascii_of_string t)%list.
Proof. induction s as [| c s IH]; [done |]. simpl. by rewrite IH. Qed.

Lemma reversed_append (s t : string) :
  reversed (s +:+ t) = (reversed t ++ reversed s)%list.
Proof. unfold reversed. by rewrite list_ascii_of_append, reverse_app. Qed.

Lemma reversed_inj (s t : string) : reversed s = reversed t → s = t.
Proof.
  unfold reversed. intros Heq. apply (inj reverse) in Heq.
  rewrite <- (String.string_of_list_ascii_of_string s),
          <- (String.string_of_list_ascii_of_string t).
  by rewrite Heq.
Qed.

(** Turns an equation between two method names of streams into one between
    their reversed characters, where the differing endings show. *)
Ltac stream_names H :=
  simplify_eq/=;
  apply (f_equal reversed) in H;
  rewrite !reversed_append in H;
  cbn in H.

Lemma stream_name_inj (n1 n2 ending : string) :
  "streams." +:+ n1 +:+ ending = "streams." +:+ n2 +:+ ending → n1 = n2.
Proof.
  intros Heq. simplify_eq/=.
  apply (f_equal reversed) in Heq. rewrite !reversed_append in Heq.
  apply app_inv_head in Heq. by apply reversed_inj.
Qed.

(** ** The registry of handlers *)

Section Registry.
Context `{Host}.

Lemma register_stream_other (handlers : gmap string Handler) (name m : string) :
  (∀ x, m ≠ "streams." +:+ x) →
  register_stream handlers name !! m = handlers !! m.
Proof.
  intros Hm. unfold register_stream, register.
  rewrite !lookup_insert_ne; [done | ..]; intros Heq; by eapply Hm.
Qed.

Lemma registered_streams_other (names : list string) (handlers : gmap string Handler)
    (m : string) :
  (∀ x, m ≠ "streams." +:+ x) →
  foldl register_stream handlers names !! m = handlers !! m.
Proof.
  intros Hm. revert handlers.
  induction names as [| name names IH]; intros handlers; [done |].
  simpl. rewrite IH. by apply register_stream_other.
Qed.

(** The operations [update] and [create] get no handler from the
    registration of a stream. *)
Lemma register_stream_unregistered (handlers : gmap string Handler) (name n ending : string) :
  ending = ".update" ∨ ending = ".create" →
  register_stream handlers name !! ("streams." +:+ n +:+ ending)
  = handlers !! ("streams." +:+ n +:+ ending).
Proof.
  intros Hending. unfold register_stream, register.
  rewrite !lookup_insert_ne; [done | ..]; intros Heq;
    destruct Hending as [-> | ->]; stream_names Heq; discriminate Heq.
Qed.

Lemma registered_streams_unregistered (names : list string)
    (handlers : gmap string Handler) (n ending : string) :
  ending = ".update" ∨ ending = ".create" →
  foldl register_stream handlers names !! ("streams." +:+ n +:+ ending)
  = handlers !! ("streams." +:+ n +:+ ending).
Proof.
  intros Hending. revert handlers.
  induction names as [| name names IH]; intros handlers; [done |].
  simpl. rewrite IH. by apply register_stream_unregistered.
Qed.

(** The handlers of a stream stay in place when further streams are
    registered: another stream takes other names, the same stream the same
    handlers. *)
Lemma register_stream_keeps (handlers : gmap string Handler) (name n : string) :
  handlers !! ("streams." +:+ n +:+ ".get") = Some (stream_get_handler n) →
  handlers !! ("streams." +:+ n +:+ ".delete") = Some (stream_delete_handler n) →
  register_stream handlers name !! ("streams." +:+ n +:+ ".get") = Some (stream_get_handler n) ∧
  register_stream handlers name !! ("streams." +:+ n +:+ ".delete")
    = Some (stream_delete_handler n).
Proof.
  intros Hget Hdelete. unfold register_stream, register. split.
  - rewrite lookup_insert_ne by (intros Heq; stream_names Heq; discriminate Heq).
    rewrite lookup_insert_ne by (intros Heq; stream_names Heq; discriminate Heq).
    rewrite lookup_insert_ne by (intros Heq; stream_names Heq; discriminate Heq).
    rewrite lookup_insert. case_decide as Heq; [| done].
    apply stream_name_inj in Heq. by subst.
  - rewrite lookup_insert_ne by (intros Heq; stream_names Heq; discriminate Heq).
    rewrite lookup_insert. case_decide as Heq.
    + apply stream_name_inj in Heq. by subst.
    + rewrite lookup_insert_ne by (intros Heq'; stream_names Heq'; discriminate Heq').
      by rewrite lookup_insert_ne by (intros Heq'; stream_names Heq'; discriminate Heq').
Qed.

Lemma register_stream_registers (handlers : gmap string Handler) (name : string) :
  register_stream handlers name !! ("streams." +:+ name +:+ ".get")
    = Some (stream_get_handler name) ∧
  register_stream handlers name !! ("streams." +:+ name +:+ ".delete")
    = Some (stream_delete_handler name).
Proof.
  unfold register_stream, register. split.
  - rewrite lookup_insert_ne by (intros Heq; stream_names Heq; discriminate Heq).
    rewrite lookup_insert_ne by (intros Heq; stream_names Heq; discriminate Heq).
    rewrite lookup_insert_ne by (intros Heq; stream_names Heq; discriminate Heq).
    by rewrite lookup_insert_eq.
  - rewrite lookup_insert_ne by (intros Heq; stream_names Heq; discriminate Heq).
    by rewrite lookup_insert_eq.
Qed.

Lemma registered_streams_registers (names : list string) (handlers : gmap string Handler)
    (n : string) :
  n ∈ names ∨
    (handlers !! ("streams." +:+ n +:+ ".get") = Some (stream_get_handler n) ∧
     handlers !! ("streams." +:+ n +:+ ".delete") = Some (stream_delete_handler n)) →
  foldl register_stream handlers names !! ("streams." +:+ n +:+ ".get")
    = Some (stream_get_handler n) ∧
  foldl register_stream handlers names !! ("streams." +:+ n +:+ ".delete")
    = Some (stream_delete_handler n).
Proof.
  revert handlers. induction names as [| name names IH]; intros handlers Hn; simpl.
  - destruct Hn as [Hn | Hn]; [by apply elem_of_nil in Hn | done].
  - apply IH. destruct Hn as [Hn | [Hget Hdelete]].
    + apply elem_of_cons in Hn as [-> | Hn]; [right | by left].
      apply register_stream_registers.
    + right. by apply register_stream_keeps.
Qed.
End Registry.

(** ** What the handlers do *)

Section HandlerFacts.
Context `{Host}.
Variable options : CallStepFileOptions.

Lemma isAllowedToEmit_declared (topic : JsVal) :
  isAllowedToEmit (step options) topic = true ↔ declared_topic options topic.
Proof.
  unfold isAllowedToEmit, declared_topic. split.
  - destruct topic; try done. intros Hin%bool_decide_eq_true. eauto.
  - intros (t & -> & Hin). by apply bool_decide_eq_true.
Qed.

Lemma emitted_event_overrides (input : JsVal) :
  obj_get (emitted_event options input) "traceId" = VStr (traceId options) ∧
  obj_get (emitted_event options input) "flows" = flows_value options ∧
  obj_get (emitted_event options input) "logger" = VLogger (child_logger options).
Proof.
  unfold emitted_event. repeat split.
  - rewrite !obj_get_set_ne by done. apply obj_get_set_eq.
  - rewrite obj_get_set_ne by done. apply obj_get_set_eq.
  - apply obj_get_set_eq.
Qed.

(** Every other property is the one the worker sent. *)
Lemma emitted_event_keeps (fields : JsObj) (k : string) :
  k ≠ "traceId" → k ≠ "flows" → k ≠ "logger" →
  obj_get (emitted_event options (VObj fields)) k = obj_get fields k.
Proof.
  intros Ht Hf Hl. unfold emitted_event. by rewrite !obj_get_set_ne.
Qed.

(** A topic read from something that is not an object is [undefined], which
    no step may emit. *)
Lemma allowed_topic_of_object (input topic : JsVal) :
  prop input "topic" = Normal topic →
  isAllowedToEmit (step options) topic = true →
  ∃ fields, input = VObj fields ∧ topic = obj_get fields "topic".
Proof.
  intros Hprop Hallowed.
  destruct input; simpl in Hprop; simplify_eq; try done. eauto.
Qed.

Ltac enter_handler :=
  intros input ex;
  unfold with_prop, reads, writes, calls;
  repeat match goal with
    | |- context [prop ?i ?k] => destruct (prop i k)
    end;
  repeat match goal with
    | |- context [let '(_, _) := ?p in _] => destruct p
    end;
  simpl.

Ltac no_calls :=
  split; [done | split; [by rewrite ?decide_False by (intros ?; simplify_eq/=) |]];
  exists []; by rewrite app_nil_r.

Ltac one_call :=
  split; [done | split; [by rewrite ?decide_False by (intros ?; simplify_eq/=) |]];
  eexists [_]; split; [reflexivity | by repeat constructor].

Lemma close_handler_spec : handler_spec options "close" close_handler.
Proof. unfold close_handler. enter_handler. one_call. Qed.

Lemma log_handler_spec : handler_spec options "log" log_handler.
Proof. unfold log_handler. enter_handler. one_call. Qed.

Lemma state_get_handler_spec : handler_spec options "state.get" state_get_handler.
Proof. unfold state_get_handler. enter_handler; no_calls. Qed.

Lemma state_set_handler_spec : handler_spec options "state.set" state_set_handler.
Proof. unfold state_set_handler. enter_handler; no_calls. Qed.

Lemma state_delete_handler_spec : handler_spec options "state.delete" state_delete_handler.
Proof. unfold state_delete_handler. enter_handler; no_calls. Qed.

Lemma state_clear_handler_spec : handler_spec options "state.clear" state_clear_handler.
Proof. unfold state_clear_handler. enter_handler; no_calls. Qed.

Lemma state_getGroup_handler_spec :
  handler_spec options "state.getGroup" state_getGroup_handler.
Proof. unfold state_getGroup_handler. enter_handler; no_calls. Qed.

Lemma result_handler_spec : handler_spec options "result" result_handler.
Proof.
  intros input ex. unfold result_handler. simpl.
  split; [done | split; [done |]]. exists []. by rewrite app_nil_r.
Qed.

Lemma emit_handler_spec : handler_spec options "emit" (emit_handler options).
Proof.
  intros input ex. unfold emit_handler, with_prop, calls.
  destruct (prop input "topic") as [topic | e] eqn:Hprop; simpl.
  - destruct (isAllowedToEmit (step options) topic) eqn:Hallowed; simpl.
    + split; [done | split; [done |]]. eexists [_]. split; [reflexivity |].
      constructor; [| constructor]. simpl.
      destruct (allowed_topic_of_object _ _ Hprop Hallowed) as (fields & -> & ->).
      split; [done |]. split; [| apply emitted_event_overrides].
      rewrite emitted_event_keeps by done. by apply isAllowedToEmit_declared.
    + split; [done | split; [done |]]. eexists [_]. split; [reflexivity |].
      constructor; [| constructor]. simpl. split; [done |].
      intros Hdeclared%isAllowedToEmit_declared. congruence.
  - split; [done | split; [done |]]. exists []. by rewrite app_nil_r.
Qed.

Lemma register_stream_spec (handlers : gmap string Handler) (name : string) :
  map_Forall (handler_spec options) handlers →
  map_Forall (handler_spec options) (register_stream handlers name).
Proof.
  intros Hall. unfold register_stream, register.
  repeat apply map_Forall_insert_2; [.. | done].
  - unfold stream_getGroup_handler. enter_handler; no_calls.
  - unfold stream_delete_handler. enter_handler; no_calls.
  - unfold stream_set_handler. enter_handler; no_calls.
  - unfold stream_get_handler. enter_handler; no_calls.
Qed.

Lemma registered_streams_spec (names : list string) (handlers : gmap string Handler) :
  map_Forall (handler_spec options) handlers →
  map_Forall (handler_spec options) (foldl register_stream handlers names).
Proof.
  revert handlers. induction names as [| name names IH]; intros handlers Hall; [done |].
  simpl. by apply IH, register_stream_spec.
Qed.

Lemma step_handlers_spec : map_Forall (handler_spec options) (step_handlers options).
Proof.
  unfold step_handlers, register. apply registered_streams_spec.
  repeat apply map_Forall_insert_2; [.. | apply map_Forall_empty].
  - apply emit_handler_spec.
  - apply result_handler_spec.
  - apply state_getGroup_handler_spec.
  - apply state_clear_handler_spec.
  - apply state_delete_handler_spec.
  - apply state_set_handler_spec.
  - apply state_get_handler_spec.
  - apply log_handler_spec.
  - apply close_handler_spec.
Qed.

(** The handlers under the fixed method names are the ones registered for
    them: no stream takes their names. *)
Lemma step_handlers_fixed :
  step_handlers options !! "emit" = Some (emit_handler options) ∧
  step_handlers options !! "result" = Some result_handler ∧
  step_handlers options !! "state.get" = Some state_get_handler ∧
  step_handlers options !! "state.set" = Some state_set_handler ∧
  step_handlers options !! "state.delete" = Some state_delete_handler ∧
  step_handlers options !! "state.clear" = Some state_clear_handler ∧
  step_handlers options !! "state.getGroup" = Some state_getGroup_handler.
Proof.
  unfold step_handlers, register.
  repeat split; (rewrite registered_streams_other by (intros x Hx; simplify_eq/=));
    by simplify_map_eq.
Qed.

(** Requests under the fixed method names always find their handler. *)
Lemma fixed_methods_handled (m : string) (input : JsVal) :
  m ∈ ["close"; "log"; "state.get"; "state.set"; "state.delete"; "state.clear";
       "state.getGroup"; "result"; "emit"] →
  handled options (Request m input).
Proof.
  intros Hm. simpl. unfold step_handlers, register.
  repeat (apply elem_of_cons in Hm as [-> | Hm];
          [rewrite registered_streams_other by (intros x Hx; simplify_eq/=);
           by simplify_map_eq |]).
  by apply elem_of_nil in Hm.
Qed.
End HandlerFacts.

(** Shows that the listed events of a worker are all handled. *)
Ltac show_handled :=
  repeat (apply Forall_nil || apply Forall_cons_2);
  first [exact I | apply fixed_methods_handled; repeat constructor].

(** ** Runs of an invocation *)

Section Runs.
Context `{Host}.
Variable options : CallStepFileOptions.

Lemma run_app (inv : Invocation) (evs1 evs2 : list ProcEvent) :
  run options inv (evs1 ++ evs2) = run options (run options inv evs1) evs2.
Proof. unfold run. apply foldl_app. Qed.

Lemma run_snoc (inv : Invocation) (evs : list ProcEvent) (ev : ProcEvent) :
  run options inv (evs ++ [ev]) = on_event options (run options inv evs) ev.
Proof. by rewrite run_app. Qed.

(** A request for a registered method runs its handler and answers with
    its outcome. *)
Lemma live_request (inv : Invocation) (m : string) (fn : Handler) (input : JsVal) :
  live options inv →
  step_handlers options !! m = Some fn →
  on_event options inv (Request m input) =
    with_exec (fun _ => perform (Reply m (fn input (exec inv)).2) (fn input (exec inv)).1) inv.
Proof.
  intros [Hphase Hhandlers] Hfn. unfold on_event. rewrite Hphase.
  unfold dispatch, Handler in *. rewrite Hhandlers, Hfn.
  by destruct (fn input (exec inv)).
Qed.

Lemma live_handled (inv : Invocation) (ev : ProcEvent) :
  live options inv → handled options ev →
  live options (on_event options inv ev) ∧
  promise (exec (on_event options inv ev)) = promise (exec inv) ∧
  process (on_event options inv ev) = process inv ∧
  result (exec (on_event options inv ev)) = latest_result (result (exec inv)) [ev].
Proof.
  intros Hlive Hev. pose proof Hlive as [Hphase Hhandlers].
  destruct ev as [| | m input | text | text | |]; try done.
  - destruct Hev as [fn Hfn]. rewrite (live_request _ _ _ _ Hlive Hfn).
    destruct (step_handlers_spec options m fn Hfn input (exec inv)) as (Hp & Hr & _).
    repeat split; done.
  - unfold on_event. rewrite Hphase. unfold onStdout.
    by destruct (JSON_parse text).
  - unfold on_event. by rewrite Hphase.
Qed.

Lemma live_run (inv : Invocation) (evs : list ProcEvent) :
  live options inv → Forall (handled options) evs →
  live options (run options inv evs) ∧
  promise (exec (run options inv evs)) = promise (exec inv) ∧
  process (run options inv evs) = process inv ∧
  result (exec (run options inv evs)) = latest_result (result (exec inv)) evs.
Proof.
  intros Hlive Hevs. revert inv Hlive.
  induction Hevs as [| ev evs Hev Hevs IH]; intros inv Hlive; [done |].
  destruct (live_handled inv ev Hlive Hev) as (Hlive' & Hp & Hq & Hr).
  destruct (IH _ Hlive') as (Hlive'' & Hp' & Hq' & Hr').
  unfold run in *. simpl. repeat split; try apply Hlive''; try congruence.
  rewrite Hr', Hr. done.
Qed.

Lemma stream_factories (names : list string) (ex : Exec) :
  let ex' := foldl (fun ex name => perform (StreamFactory name) ex) ex names in
  promise ex' = promise ex ∧ result ex' = result ex ∧ store ex' = store ex ∧
  effects ex' = (effects ex ++ (StreamFactory <$> names))%list.
Proof.
  revert ex. induction names as [| name names IH]; intros ex; simpl.
  - by rewrite app_nil_r.
  - destruct (IH (perform (StreamFactory name) ex)) as (Hp & Hr & Hs & He).
    repeat split; [done | done | done |]. rewrite He. simpl. by rewrite <- app_assoc.
Qed.

(** With a supported file ending the call creates the process manager and,
    once the process has spawned, is live with a pending promise. *)
Lemma spawned_live (s : Store) (r : Runner) :
  getLanguageBasedRunner (filePath (step options)) = Normal r →
  let inv := run options (callStepFile options s) [SpawnResolved] in
  live options inv ∧ promise (exec inv) = Pending ∧ process inv = Some r ∧
  result (exec inv) = VUndefined ∧ store (exec inv) = s.
Proof.
  intros Hrunner. unfold run, callStepFile. rewrite Hrunner. simpl.
  unfold on_event, onSpawned. simpl.
  match goal with
  | |- context [foldl _ ?ex ?names] =>
      destruct (stream_factories names ex) as (Hp & Hr & Hs & _)
  end.
  by repeat split.
Qed.

Lemma close_promise (inv : Invocation) (code : option Z) :
  phase inv = Running →
  promise (exec (on_event options inv (ProcessClose code))) =
    (if is_failure_code code
     then reject (RString ("Process exited with code " +:+ code_to_string code))
     else resolve (result (exec inv))) (promise (exec inv)).
Proof.
  intros Hphase. unfold on_event. rewrite Hphase. unfold onProcessClose.
  by destruct (is_failure_code code).
Qed.

End Runs.

(** ** The invariant of an invocation *)

Section Invariant.
Context `{Host}.
Variable options : CallStepFileOptions.

Lemma perform_well_formed (inv : Invocation) (e : Effect) :
  well_formed options inv → effect_ok options e →
  well_formed options (with_exec (perform e) inv).
Proof.
  intros [Hhandlers Heffects] He. split; [done |]. simpl.
  apply Forall_app. split; [done | by constructor].
Qed.

Lemma pm_close_well_formed (inv : Invocation) :
  well_formed options inv → well_formed options (pm_close inv).
Proof.
  intros [Hhandlers Heffects]. split; [by left |]. simpl.
  apply Forall_app. split; [done | by constructor].
Qed.

Lemma settle_well_formed (inv : Invocation) (f : Promise → Promise) :
  well_formed options inv → well_formed options (with_exec (settle f) inv).
Proof. by intros [Hhandlers Heffects]. Qed.

Lemma dispatch_well_formed (inv : Invocation) (m : string) (input : JsVal) :
  well_formed options inv → well_formed options (dispatch m input inv).
Proof.
  intros Hwf. unfold dispatch.
  destruct (handlers inv !! m) as [fn |] eqn:Hfn.
  - destruct Hwf as [[Hempty | Hstep] Heffects].
    { rewrite Hempty in Hfn. by rewrite lookup_empty in Hfn. }
    rewrite Hstep in Hfn.
    destruct (step_handlers_spec options m fn Hfn input (exec inv))
      as (_ & _ & new & Hnew & Hok).
    destruct (fn input (exec inv)) as [ex response] eqn:Hrun. simpl in *.
    split; [by right |]. simpl. rewrite Hnew.
    apply Forall_app. split; [by apply Forall_app |]. constructor; [| done].
    simpl. intros ->.
    destruct (step_handlers_fixed options) as (_ & Hresult & _).
    unfold Handler in *. rewrite Hresult in Hfn. simplify_eq.
    unfold result_handler in Hrun. by simplify_eq.
  - apply perform_well_formed; [| done].
    apply pm_close_well_formed. by apply perform_well_formed.
Qed.

Lemma on_event_well_formed (inv : Invocation) (ev : ProcEvent) :
  well_formed options inv → well_formed options (on_event options inv ev).
Proof.
  intros Hwf. unfold on_event.
  destruct (phase inv), ev; try done.
  - destruct Hwf as [Hhandlers Heffects]. split; [by right |]. simpl.
    match goal with
    | |- context [foldl _ ?ex ?names] =>
        destruct (stream_factories names ex) as (_ & _ & _ & ->)
    end.
    apply Forall_app. split; [done |]. by apply Forall_fmap, Forall_true.
  - destruct Hwf as [Hhandlers Heffects]. split; [done |]. simpl.
    apply Forall_app. split; [done | by constructor].
  - by apply dispatch_well_formed.
  - unfold onStdout. destruct (JSON_parse text); by apply perform_well_formed.
  - by apply perform_well_formed.
  - unfold onProcessClose. apply pm_close_well_formed in Hwf.
    destruct (is_failure_code code); destruct Hwf as [Hhandlers Heffects];
      (split; [done |]); simpl; [| done].
    apply Forall_app. split; [done | by constructor].
  - unfold onProcessError. apply pm_close_well_formed in Hwf.
    case_bool_decide; destruct Hwf as [Hhandlers Heffects];
      (split; [done |]); simpl; [| done].
    apply Forall_app. split; [done | by constructor].
Qed.

Lemma callStepFile_well_formed (s : Store) : well_formed options (callStepFile options s).
Proof.
  unfold callStepFile.
  destruct (getLanguageBasedRunner (filePath (step options))); split; simpl;
    try (by left); by repeat constructor.
Qed.

Lemma run_well_formed (s : Store) (evs : list ProcEvent) :
  well_formed options (run options (callStepFile options s) evs).
Proof.
  induction evs as [| ev evs IH] using rev_ind.
  - apply callStepFile_well_formed.
  - rewrite run_snoc. by apply on_event_well_formed.
Qed.

Lemma latest_result_last (init : JsVal) (evs : list ProcEvent) :
  latest_result init evs = default init (last (result_requests evs)).
Proof.
  induction evs as [| ev evs IH] using rev_ind; [done |].
  unfold latest_result, result_requests in *. rewrite foldl_app, bind_app. simpl.
  destruct ev as [| | m input | | | |]; simpl; rewrite ?app_nil_r; try done.
  destruct (decide (m = "result")); simpl; rewrite ?app_nil_r; [| done].
  by rewrite last_snoc.
Qed.

(** An invocation of a step with a supported file ending, through the
    spawn and handled events: it is live, its promise is pending, and
    [result] holds the last reported value. *)
Lemma running_state (s : Store) (r : Runner) (evs : list ProcEvent) :
  getLanguageBasedRunner (filePath (step options)) = Normal r →
  Forall (handled options) evs →
  let inv := run options (callStepFile options s) (SpawnResolved :: evs) in
  live options inv ∧ promise (exec inv) = Pending ∧ process inv = Some r ∧
  result (exec inv) = last_result evs.
Proof.
  intros Hrunner Hevs inv. subst inv.
  change (SpawnResolved :: evs) with ([SpawnResolved] ++ evs)%list. rewrite run_app.
  destruct (spawned_live options s r Hrunner) as (Hlive & Hp & Hq & Hr & _).
  destruct (live_run options _ evs Hlive Hevs) as (Hlive' & Hp' & Hq' & Hr').
  repeat split; try apply Hlive'; try congruence.
  rewrite Hr', Hr. done.
Qed.
End Invariant.

(** ** The end of the process *)

(** Shared by the statements below: the outcome of a call whose worker ran
    through handled events and then closed with [code]. *)
Lemma outcome_after_close `{Host} options (s : Store) (r : Runner) (evs : list ProcEvent)
    (code : option Z) :
  getLanguageBasedRunner (filePath (step options)) = Normal r →
  Forall (handled options) evs →
  outcome options s (SpawnResolved :: evs ++ [ProcessClose code]) =
    if is_failure_code code
    then Rejected (RString ("Process exited with code " +:+ code_to_string code))
    else Resolved (last_result evs).
Proof.
  intros Hrunner Hevs. unfold outcome.
  change (SpawnResolved :: evs ++ [ProcessClose code])
    with ((SpawnResolved :: evs) ++ [ProcessClose code])%list.
  rewrite run_snoc.
  destruct (running_state options s r evs Hrunner Hevs) as ([Hphase _] & Hp & _ & Hr).
  rewrite close_promise by done. rewrite Hp, Hr.
  by destruct (is_failure_code code).
Qed.

(** C4, as the code has it: the call is rejected with "Process exited with
    code N" exactly when the process closes with a numeric exit code N other
    than 0; it is resolved with the stored result when the exit code is 0 and
    also when the process was ended by a signal (exit code [null]). *)
Theorem close_settles_by_exit_code `{Host} options (s : Store) (r : Runner)
    (evs : list ProcEvent) (code : option Z) :
  getLanguageBasedRunner (filePath (step options)) = Normal r →
  Forall (handled options) evs →
  outcome options s (SpawnResolved :: evs ++ [ProcessClose code]) =
    match code with
    | Some n =>
        if decide (n = 0%Z) then Resolved (last_result evs)
        else Rejected (RString ("Process exited with code " +:+ number_to_string n))
    | None => Resolved (last_result evs)
    end.
Proof.
  intros Hrunner Hevs. rewrite (outcome_after_close options s r) by done.
  destruct code as [n |]; [| done]. simpl.
  destruct (decide (n = 0%Z)) as [-> | Hne]; [done |].
  by rewrite (proj2 (Z.eqb_neq n 0)).
Qed.

Lemma close_settles_by_exit_code_witness :
  outcome (H := memory_host) order_options sample_store
    [SpawnResolved; Request "result" (VNum 3); ProcessClose (Some 2%Z)]
  = Rejected (RString "Process exited with code 2") ∧
  outcome (H := memory_host) order_options sample_store
    [SpawnResolved; Request "result" (VNum 3); ProcessClose None]
  = Resolved (VNum 3).
Proof.
  split.
  - apply (close_settles_by_exit_code (H := memory_host) order_options sample_store
             {| runner := "/motia/core/dist/node/node-runner.js"; command := "node";
                args := [] |}
             [Request "result" (VNum 3)] (Some 2%Z)).
    + reflexivity.
    + show_handled.
  - apply (close_settles_by_exit_code (H := memory_host) order_options sample_store
             {| runner := "/motia/core/dist/node/node-runner.js"; command := "node";
                args := [] |}
             [Request "result" (VNum 3)] None).
    + reflexivity.
    + show_handled.
Defined.

(** C4, as the claim has it, fails: a worker ended by a signal closes with
    exit code [null], and the call is then resolved, not rejected. *)
Lemma signal_exit_is_success :
  outcome (H := memory_host) order_options sample_store
    [SpawnResolved; Request "result" (VNum 3); ProcessClose None] = Resolved (VNum 3) ∧
  ¬ ∃ reason,
      outcome (H := memory_host) order_options sample_store
        [SpawnResolved; Request "result" (VNum 3); ProcessClose None] = Rejected reason.
Proof. split; [reflexivity |]. intros [reason Hreason]. vm_compute in Hreason. discriminate. Qed.

(** C7: a worker that exits with code 0 without a [result] request resolves
    the call with [undefined]; one that exits with code 0 after one [result]
    request resolves it with the value of that request. *)
Theorem exit_zero_resolves_with_result `{Host} options (s : Store) (r : Runner)
    (evs : list ProcEvent) :
  getLanguageBasedRunner (filePath (step options)) = Normal r →
  Forall (handled options) evs →
  (result_requests evs = [] →
     outcome options s (SpawnResolved :: evs ++ [ProcessClose (Some 0%Z)]) = Resolved VUndefined) ∧
  (∀ v, result_requests evs = [v] →
     outcome options s (SpawnResolved :: evs ++ [ProcessClose (Some 0%Z)]) = Resolved v).
Proof.
  intros Hrunner Hevs.
  split; [intros Hnone | intros v Hone];
    rewrite (outcome_after_close options s r) by done; simpl;
    unfold last_result; rewrite latest_result_last.
  - by rewrite Hnone.
  - by rewrite Hone.
Qed.

Lemma exit_zero_resolves_with_result_witness :
  outcome (H := memory_host) order_options sample_store
    [SpawnResolved; Request "log" (VStr "working"); ProcessClose (Some 0%Z)]
  = Resolved VUndefined ∧
  outcome (H := memory_host) order_options sample_store
    [SpawnResolved; Request "result" (VNum 3); Stdout "bye"; ProcessClose (Some 0%Z)]
  = Resolved (VNum 3).
Proof.
  split.
  - refine (proj1 (exit_zero_resolves_with_result (H := memory_host) order_options sample_store
             {| runner := "/motia/core/dist/node/node-runner.js"; command := "node";
                args := [] |}
             [Request "log" (VStr "working")] _ _) _).
    + reflexivity.
    + show_handled.
    + reflexivity.
  - refine (proj2 (exit_zero_resolves_with_result (H := memory_host) order_options sample_store
             {| runner := "/motia/core/dist/node/node-runner.js"; command := "node";
                args := [] |}
             [Request "result" (VNum 3); Stdout "bye"] _ _) (VNum 3) _).
    + reflexivity.
    + show_handled.
    + reflexivity.
Defined.

(** C9: when a worker sends several [result] requests before it exits with
    code 0, each one replaces the stored value, the call is resolved with the
    value of the last one, and every one of them is answered without error. *)
Theorem later_results_overwrite `{Host} options (s : Store) (r : Runner)
    (evs : list ProcEvent) (vs : list JsVal) (v : JsVal) :
  getLanguageBasedRunner (filePath (step options)) = Normal r →
  Forall (handled options) evs →
  result_requests evs = (vs ++ [v])%list →
  let inv := run options (callStepFile options s)
               (SpawnResolved :: evs ++ [ProcessClose (Some 0%Z)]) in
  promise (exec inv) = Resolved v ∧
  (∀ evs1 evs2 w,
     evs = (evs1 ++ Request "result" w :: evs2)%list →
     result (exec (run options (callStepFile options s)
                     (SpawnResolved :: evs1 ++ [Request "result" w]))) = w) ∧
  (∀ response, Reply "result" response ∈ effects (exec inv) → response = Normal VUndefined).
Proof.
  intros Hrunner Hevs Hresults inv. subst inv. split; [| split].
  - fold (outcome options s (SpawnResolved :: evs ++ [ProcessClose (Some 0%Z)])).
    rewrite (outcome_after_close options s r) by done. simpl.
    unfold last_result. rewrite latest_result_last, Hresults. by rewrite last_snoc.
  - intros evs1 evs2 w ->.
    apply Forall_app in Hevs as [Hevs1 Hevs2].
    apply Forall_cons in Hevs2 as [Hw _].
    assert (Forall (handled options) (evs1 ++ [Request "result" w])) as Hprefix.
    { apply Forall_app. split; [done | by constructor]. }
    destruct (running_state options s r _ Hrunner Hprefix) as (_ & _ & _ & ->).
    unfold last_result, latest_result. by rewrite foldl_app.
  - intros response Hin.
    pose proof (run_well_formed options s (SpawnResolved :: evs ++ [ProcessClose (Some 0%Z)]))
      as [_ Hok].
    rewrite Forall_forall in Hok. by apply (Hok _ Hin).
Qed.

Lemma later_results_overwrite_witness :
  promise (exec (run (H := memory_host) order_options
                   (callStepFile (H := memory_host) order_options sample_store)
                   [SpawnResolved; Request "result" (VNum 1); Request "log" (VStr "again");
                    Request "result" (VNum 2); ProcessClose (Some 0%Z)]))
  = Resolved (VNum 2).
Proof.
  refine (proj1 (later_results_overwrite (H := memory_host) order_options sample_store
            {| runner := "/motia/core/dist/node/node-runner.js"; command := "node";
               args := [] |}
            [Request "result" (VNum 1); Request "log" (VStr "again"); Request "result" (VNum 2)]
            [VNum 1] (VNum 2) _ _ _)).
  - reflexivity.
  - show_handled.
  - reflexivity.
Defined.

(** ** Emissions *)

(** C3: every event the parent hands to the event manager carries the
    executor's own [traceId] and the flows of the step, whatever [traceId]
    and [flows] the worker put in the payload; so the events forwarded for
    two workers that were given the same [traceId] carry that same
    [traceId]. *)
Theorem forwarded_event_carries_executor_trace `{Host} options (s : Store)
    (evs : list ProcEvent) (event : JsObj) (file : string) :
  EventManagerEmit event file ∈ effects (exec (run options (callStepFile options s) evs)) →
  obj_get event "traceId" = VStr (traceId options) ∧
  obj_get event "flows" = flows_value options ∧
  (∀ options' s' evs' event' file',
     traceId options' = traceId options →
     EventManagerEmit event' file'
       ∈ effects (exec (run options' (callStepFile options' s') evs')) →
     obj_get event' "traceId" = obj_get event "traceId").
Proof.
  intros Hin.
  pose proof (run_well_formed options s evs) as [_ Hok].
  rewrite Forall_forall in Hok. destruct (Hok _ Hin) as (_ & _ & Htrace & Hflows & _).
  split; [done | split; [done |]].
  intros options' s' evs' event' file' Hsame Hin'.
  pose proof (run_well_formed options' s' evs') as [_ Hok'].
  rewrite Forall_forall in Hok'. destruct (Hok' _ Hin') as (_ & _ & Htrace' & _).
  by rewrite Htrace, Htrace', Hsame.
Qed.

Lemma forwarded_event_carries_executor_trace_witness :
  EventManagerEmit
    [("topic", VStr "b"); ("traceId", VStr "T1"); ("flows", VArr [VStr "shop"]);
     ("logger", VLogger {| logger_base := "root"; logger_step := Some "order" |})]
    "steps/order.step.ts"
    ∈ effects (exec (run (H := memory_host) order_options
                       (callStepFile (H := memory_host) order_options sample_store)
                       [SpawnResolved;
                        Request "emit" (VObj [("topic", VStr "b"); ("traceId", VStr "forged");
                                              ("flows", VArr [VStr "other"])])])) ∧
  obj_get [("topic", VStr "b"); ("traceId", VStr "T1"); ("flows", VArr [VStr "shop"]);
           ("logger", VLogger {| logger_base := "root"; logger_step := Some "order" |})]
    "traceId" = VStr "T1".
Proof.
  assert (EventManagerEmit
    [("topic", VStr "b"); ("traceId", VStr "T1"); ("flows", VArr [VStr "shop"]);
     ("logger", VLogger {| logger_base := "root"; logger_step := Some "order" |})]
    "steps/order.step.ts"
    ∈ effects (exec (run (H := memory_host) order_options
                       (callStepFile (H := memory_host) order_options sample_store)
                       [SpawnResolved;
                        Request "emit" (VObj [("topic", VStr "b"); ("traceId", VStr "forged");
                                              ("flows", VArr [VStr "other"])])]))) as Hin.
  { apply list_elem_of_In. vm_compute. do 4 right. left. reflexivity. }
  split; [exact Hin |].
  exact (proj1 (forwarded_event_carries_executor_trace (H := memory_host) order_options
                  sample_store _ _ _ Hin)).
Defined.



(** ** State requests *)

(** C2, as the code has it: every state request is carried out on the state
    manager under the [traceId] (for [state.getGroup], the [groupId]) found in
    the worker's payload; the [traceId] of the executor plays no part in
    it. *)
Theorem state_requests_use_payload_trace `{Host} options (inv : Invocation) (fields : JsObj) :
  live options inv →
  let t := obj_get fields "traceId" in
  let k := obj_get fields "key" in
  let v := obj_get fields "value" in
  let g := obj_get fields "groupId" in
  let s := store (exec inv) in
  exec (on_event options inv (Request "state.get" (VObj fields)))
    = perform (Reply "state.get" (Normal (state_get t k s))) (exec inv) ∧
  exec (on_event options inv (Request "state.set" (VObj fields)))
    = perform (Reply "state.set" (Normal (state_set t k v s).2))
        (set_store (state_set t k v s).1 (exec inv)) ∧
  exec (on_event options inv (Request "state.delete" (VObj fields)))
    = perform (Reply "state.delete" (Normal (state_delete t k s).2))
        (set_store (state_delete t k s).1 (exec inv)) ∧
  exec (on_event options inv (Request "state.clear" (VObj fields)))
    = perform (Reply "state.clear" (Normal VUndefined))
        (set_store (state_clear t s) (exec inv)) ∧
  exec (on_event options inv (Request "state.getGroup" (VObj fields)))
    = perform (Reply "state.getGroup" (Normal (state_getGroup g s))) (exec inv).
Proof.
  intros Hlive t k v g s. subst t k v g s.
  destruct (step_handlers_fixed options)
    as (_ & _ & Hget & Hset & Hdelete & Hclear & HgetGroup).
  rewrite (live_request options inv "state.get" _ _ Hlive Hget).
  rewrite (live_request options inv "state.set" _ _ Hlive Hset).
  rewrite (live_request options inv "state.delete" _ _ Hlive Hdelete).
  rewrite (live_request options inv "state.clear" _ _ Hlive Hclear).
  rewrite (live_request options inv "state.getGroup" _ _ Hlive HgetGroup).
  unfold state_get_handler, state_set_handler, state_delete_handler, state_clear_handler,
    state_getGroup_handler, with_prop, reads, writes. simpl.
  repeat split.
  - by destruct (state_set _ _ _ _).
  - by destruct (state_delete _ _ _).
Qed.

Lemma state_requests_use_payload_trace_witness :
  live (H := memory_host) order_options
    (run (H := memory_host) order_options
       (callStepFile (H := memory_host) order_options sample_store) [SpawnResolved]) ∧
  traceId order_options = "T1" ∧
  last (effects (exec (run (H := memory_host) order_options
                         (callStepFile (H := memory_host) order_options sample_store)
                         [SpawnResolved;
                          Request "state.get"
                            (VObj [("traceId", VStr "T2"); ("key", VStr "user")])])))
  = Some (Reply "state.get" (Normal (VStr "secret"))).
Proof.
  assert (live (H := memory_host) order_options
            (run (H := memory_host) order_options
               (callStepFile (H := memory_host) order_options sample_store) [SpawnResolved]))
    as Hlive.
  { split; reflexivity. }
  split; [exact Hlive | split; [reflexivity |]].
  change (run (H := memory_host) order_options
            (callStepFile (H := memory_host) order_options sample_store)
            [SpawnResolved;
             Request "state.get" (VObj [("traceId", VStr "T2"); ("key", VStr "user")])])
    with (on_event (H := memory_host) order_options
            (run (H := memory_host) order_options
               (callStepFile (H := memory_host) order_options sample_store) [SpawnResolved])
            (Request "state.get" (VObj [("traceId", VStr "T2"); ("key", VStr "user")]))).
  rewrite (proj1 (state_requests_use_payload_trace (H := memory_host) order_options _
                    [("traceId", VStr "T2"); ("key", VStr "user")] Hlive)).
  reflexivity.
Defined.

(** C2, as the claim has it, fails: an invocation running under the trace
    [T1] reads the value that the flow [T2] stored, and overwrites it, by
    naming [T2] in its requests. *)
Lemma worker_reaches_other_trace :
  traceId order_options = "T1" ∧
  memory_state_get (VStr "T1") (VStr "user") sample_store = VNull ∧
  last (effects (exec (run (H := memory_host) order_options
                         (callStepFile (H := memory_host) order_options sample_store)
                         [SpawnResolved;
                          Request "state.get"
                            (VObj [("traceId", VStr "T2"); ("key", VStr "user")])])))
  = Some (Reply "state.get" (Normal (VStr "secret"))) ∧
  memory_state_get (VStr "T2") (VStr "user")
    (store (exec (run (H := memory_host) order_options
                    (callStepFile (H := memory_host) order_options sample_store)
                    [SpawnResolved;
                     Request "state.set"
                       (VObj [("traceId", VStr "T2"); ("key", VStr "user");
                              ("value", VStr "overwritten")])])))
  = VStr "overwritten".
Proof. split; [| split; [| split]]; reflexivity. Qed.

(** ** Stream requests *)

(** C5: for a declared stream the parent has handlers for the requests [get]
    and [delete] of the worker's context, and none for its [update] and
    [create]: such a request finds no handler, the channel is closed and the
    worker killed. *)
Theorem stream_update_and_create_unhandled `{Host} options (name : string) :
  name ∈ getStreams (lockedData options) →
  step_handlers options !! stream_method name OpGet = Some (stream_get_handler name) ∧
  step_handlers options !! stream_method name OpDelete = Some (stream_delete_handler name) ∧
  step_handlers options !! stream_method name OpUpdate = None ∧
  step_handlers options !! stream_method name OpCreate = None ∧
  (∀ inv op input,
     live options inv → op = OpUpdate ∨ op = OpCreate →
     effects (exec (on_event options inv (Request (stream_method name op) input)))
     = (effects (exec inv) ++ [Unhandled (stream_method name op); Close; Kill])%list).
Proof.
  intros Hname.
  assert (∀ ending, ending = ".update" ∨ ending = ".create" →
            step_handlers options !! ("streams." +:+ name +:+ ending) = None) as Hnone.
  { intros ending Hending. unfold step_handlers.
    rewrite registered_streams_unregistered by done. unfold register.
    rewrite !lookup_insert_ne by (intros Heq; destruct Hending as [-> | ->]; simplify_eq/=).
    apply lookup_empty. }
  split; [| split; [| split; [| split]]].
  - apply (registered_streams_registers (getStreams (lockedData options)) _ name
             (or_introl Hname)).
  - apply (registered_streams_registers (getStreams (lockedData options)) _ name
             (or_introl Hname)).
  - apply (Hnone ".update"). by left.
  - apply (Hnone ".create"). by right.
  - intros inv op input [Hphase Hhandlers] Hop. unfold on_event. rewrite Hphase.
    unfold dispatch, Handler in *. rewrite Hhandlers.
    destruct Hop as [-> | ->].
    + change (stream_method name OpUpdate) with ("streams." +:+ name +:+ ".update").
      rewrite (Hnone ".update") by (by left). simpl. by rewrite <- !app_assoc.
    + change (stream_method name OpCreate) with ("streams." +:+ name +:+ ".create").
      rewrite (Hnone ".create") by (by right). simpl. by rewrite <- !app_assoc.
Qed.

Lemma stream_update_and_create_unhandled_witness :
  "s" ∈ getStreams (lockedData order_options) ∧
  worker_events (runTypescriptModule "steps/order.step.ts" sample_event (Normal updating_module))
  = [Request "streams.s.update" (VObj [("id", VStr "1"); ("data", VObj [("n", VNum 1)])]);
     Request "result" VUndefined; ProcessClose (Some 0%Z)] ∧
  step_handlers (H := memory_host) order_options !! "streams.s.update" = None.
Proof.
  assert ("s" ∈ getStreams (lockedData order_options)) as Hin.
  { apply list_elem_of_In. simpl. by left. }
  split; [exact Hin | split; [reflexivity |]].
  exact (proj1 (proj2 (proj2 (stream_update_and_create_unhandled (H := memory_host)
                                order_options "s" Hin)))).
Defined.

(** The whole exchange for the module of [updating_module]: the request the
    runner sends for [context.streams.s.update] is the first thing the parent
    sees after the spawn, and it finds no handler. *)
Example update_request_finds_no_handler :
  effects (exec (run (H := memory_host) order_options
                   (callStepFile (H := memory_host) order_options sample_store)
                   (SpawnResolved ::
                      worker_events (runTypescriptModule "steps/order.step.ts" sample_event
                                       (Normal updating_module)))))
    !! 4%nat
  = Some (Unhandled "streams.s.update").
Proof. vm_compute. reflexivity. Qed.

(** ** The Node runner *)



(** * Further properties of the code *)

(** ** The promise and the traffic of a worker *)

Section Settling.
Context `{Host}.
Variable options : CallStepFileOptions.

Lemma dispatch_promise (inv : Invocation) (m : string) (input : JsVal) :
  well_formed options inv →
  promise (exec (dispatch m input inv)) = promise (exec inv) ∧
  phase (dispatch m input inv) = phase inv.
Proof.
  intros [Hhandlers _]. unfold dispatch.
  destruct (handlers inv !! m) as [fn |] eqn:Hfn; [| done].
  destruct Hhandlers as [Hempty | Hstep].
  { rewrite Hempty in Hfn. by rewrite lookup_empty in Hfn. }
  rewrite Hstep in Hfn.
  destruct (step_handlers_spec options m fn Hfn input (exec inv)) as (Hp & _).
  by destruct (fn input (exec inv)).
Qed.

Lemma traffic_keeps_promise (inv : Invocation) (ev : ProcEvent) :
  well_formed options inv → traffic ev →
  promise (exec (on_event options inv ev)) = promise (exec inv) ∧
  phase (on_event options inv ev) = phase inv.
Proof.
  intros Hwf Hev. unfold on_event.
  destruct (phase inv) eqn:Hphase, ev; try done.
  - destruct (dispatch_promise inv method input Hwf) as [Hp Hq]. by rewrite Hq.
  - unfold onStdout. by destruct (JSON_parse text).
Qed.


Lemma settled_stays (inv : Invocation) (ev : ProcEvent) :
  well_formed options inv →
  promise (exec inv) ≠ Pending →
  promise (exec (on_event options inv ev)) = promise (exec inv).
Proof.
  intros Hwf Hsettled.
  destruct ev as [| error | m input | text | text | code | error];
    try (by apply traffic_keeps_promise).
  - unfold on_event. destruct (phase inv); try done. simpl.
    match goal with
    | |- context [foldl _ ?ex ?names] =>
        by destruct (stream_factories names ex) as (-> & _)
    end.
  - unfold on_event. destruct (phase inv); try done. simpl.
    by destruct (promise (exec inv)).
  - unfold on_event. destruct (phase inv); try done.
    unfold onProcessClose. destruct (is_failure_code code); simpl;
      by destruct (promise (exec inv)).
  - unfold on_event. destruct (phase inv); try done.
    unfold onProcessError. case_bool_decide; simpl; by destruct (promise (exec inv)).
Qed.
End Settling.





(** X1: the traffic of a worker never settles the call: after the spawn, any
    sequence of requests (for registered methods or not), stdout and stderr
    leaves the promise pending; only the end of the process or a process
    error decides. *)
Theorem traffic_never_settles `{Host} options (s : Store) (r : Runner)
    (evs : list ProcEvent) :
  getLanguageBasedRunner (filePath (step options)) = Normal r →
  Forall traffic evs →
  outcome options s (SpawnResolved :: evs) = Pending.
Proof.
  intros Hrunner Hevs. unfold outcome.
  induction evs as [| ev evs IH] using rev_ind.
  - by destruct (spawned_live options s r Hrunner) as (_ & Hp & _).
  - apply Forall_app in Hevs as [Hevs Hev]. apply Forall_cons in Hev as [Hev _].
    change (SpawnResolved :: evs ++ [ev]) with ((SpawnResolved :: evs) ++ [ev])%list.
    rewrite run_snoc.
    destruct (traffic_keeps_promise options _ ev
                (run_well_formed options s (SpawnResolved :: evs)) Hev) as [-> _].
    by apply IH.
Qed.

Lemma traffic_never_settles_witness :
  outcome (H := memory_host) order_options sample_store
    [SpawnResolved; Request "result" (VNum 3); Request "no.such.method" VNull;
     Request "result" (VNum 4); Stdout "null"; Stderr "oops"]
  = Pending.
Proof.
  apply (traffic_never_settles (H := memory_host) order_options sample_store
           {| runner := "/motia/core/dist/node/node-runner.js"; command := "node";
              args := [] |}).
  - reflexivity.
  - by repeat constructor.
Defined.

(** X2: the call is settled once: when the promise is resolved or rejected,
    no later event of the process changes the outcome.  So an ENOENT error
    followed by the close of the process stays "Executable ... not found". *)
Theorem settled_once `{Host} options (s : Store) (evs evs' : list ProcEvent) :
  outcome options s evs ≠ Pending →
  outcome options s (evs ++ evs') = outcome options s evs.
Proof.
  intros Hsettled. unfold outcome in *.
  induction evs' as [| ev evs' IH] using rev_ind.
  - by rewrite app_nil_r.
  - rewrite app_assoc, run_snoc.
    rewrite settled_stays; [done | apply run_well_formed | by rewrite IH].
Qed.

Lemma settled_once_witness :
  outcome (H := memory_host) (options_for (step_at "steps/a.step.py") "T1" []) sample_store
    [SpawnResolved;
     ProcessError {| err_name := "Error"; err_message := "spawn python ENOENT";
                     err_code := Some "ENOENT" |};
     ProcessClose (Some 0%Z)]
  = Rejected (RString "Executable python not found").
Proof.
  refine (eq_trans
            (settled_once (H := memory_host)
               (options_for (step_at "steps/a.step.py") "T1" []) sample_store
               [SpawnResolved;
                ProcessError {| err_name := "Error"; err_message := "spawn python ENOENT";
                                err_code := Some "ENOENT" |}]
               [ProcessClose (Some 0%Z)] _) _).
  - discriminate.
  - reflexivity.
Defined.

(** X3: when [processManager.spawn()] rejects, the call is rejected with
    "Failed to spawn process: " followed by the error as a string; no handler
    is registered, no stream factory is called, the store is untouched, and
    whatever the process reports afterwards is ignored. *)
Theorem spawn_failure_rejects `{Host} options (s : Store) (r : Runner) (error : JsError)
    (evs : list ProcEvent) :
  getLanguageBasedRunner (filePath (step options)) = Normal r →
  let inv := run options (callStepFile options s) (SpawnRejected error :: evs) in
  promise (exec inv)
    = Rejected (RString ("Failed to spawn process: " +:+ error_to_string error)) ∧
  handlers inv = ∅ ∧
  store (exec inv) = s ∧
  effects (exec inv)
    = (effects (exec (callStepFile options s)) ++
         [execution_error options [("code", error_code_value error);
                                   ("message", VStr (err_message error))]])%list ∧
  (∀ name, StreamFactory name ∉ effects (exec inv)).
Proof.
  intros Hrunner inv. subst inv.
  change (SpawnRejected error :: evs) with ([SpawnRejected error] ++ evs)%list.
  rewrite run_app, not_spawned_ignores.
  - unfold run, callStepFile. rewrite Hrunner. simpl. repeat split.
    intros name Hin. apply list_elem_of_In in Hin. simpl in Hin.
    destruct Hin as [Hin | [Hin | [Hin | [Hin | []]]]]; discriminate.
  - unfold run, callStepFile. by rewrite Hrunner.
Qed.

Lemma spawn_failure_rejects_witness :
  outcome (H := memory_host) order_options sample_store
    [SpawnRejected (Error "EMFILE"); Request "result" (VNum 1); ProcessClose (Some 0%Z)]
  = Rejected (RString "Failed to spawn process: Error: EMFILE").
Proof.
  exact (proj1 (spawn_failure_rejects (H := memory_host) order_options sample_store
                  {| runner := "/motia/core/dist/node/node-runner.js"; command := "node";
                     args := [] |}
                  (Error "EMFILE") [Request "result" (VNum 1); ProcessClose (Some 0%Z)]
                  eq_refl)).
Defined.

(** ** The registry, as a whole *)

Section RegistryDomain.
Context `{Host}.

Lemma stream_methods_cons (name : string) (names : list string) (m : string) :
  m ∈ stream_methods (name :: names) ↔
  (m = "streams." +:+ name +:+ ".get" ∨ m = "streams." +:+ name +:+ ".set" ∨
   m = "streams." +:+ name +:+ ".delete" ∨ m = "streams." +:+ name +:+ ".getGroup") ∨
  m ∈ stream_methods names.
Proof.
  unfold stream_methods. simpl. rewrite !elem_of_cons. tauto.
Qed.

Lemma register_stream_is_Some (handlers : gmap string Handler) (name m : string) :
  is_Some (register_stream handlers name !! m) ↔
  (m = "streams." +:+ name +:+ ".get" ∨ m = "streams." +:+ name +:+ ".set" ∨
   m = "streams." +:+ name +:+ ".delete" ∨ m = "streams." +:+ name +:+ ".getGroup") ∨
  is_Some (handlers !! m).
Proof.
  unfold register_stream, register. rewrite !lookup_insert_is_Some'.
  split; intros Hm; repeat destruct Hm as [Hm | Hm]; auto 10.
Qed.

Lemma registered_streams_is_Some (names : list string) (handlers : gmap string Handler)
    (m : string) :
  is_Some (foldl register_stream handlers names !! m) ↔
  is_Some (handlers !! m) ∨ m ∈ stream_methods names.
Proof.
  revert handlers. induction names as [| name names IH]; intros handlers.
  - unfold stream_methods. simpl. rewrite elem_of_nil. tauto.
  - cbn [foldl]. rewrite IH, register_stream_is_Some, stream_methods_cons. tauto.
Qed.

(** Within the registration of one stream: the names of that stream get its
    handlers, every other name of a stream keeps what it had. *)
Lemma register_stream_lookup (handlers : gmap string Handler) (name n ending : string) :
  ending ∈ stream_endings →
  register_stream handlers name !! ("streams." +:+ n +:+ ending)
  = if decide (name = n) then Some (stream_handler ending n)
    else handlers !! ("streams." +:+ n +:+ ending).
Proof.
  intros Hending. unfold stream_endings in Hending.
  unfold register_stream, register, stream_handler.
  repeat (apply elem_of_cons in Hending as [-> | Hending]);
    [| | | | by apply elem_of_nil in Hending].
  all: repeat first
    [ rewrite lookup_insert_ne by (intros Heq; stream_names Heq; discriminate Heq)
    | rewrite (lookup_insert (M := gmap string)) ].
  all: repeat case_decide; try done.
  all: try (match goal with
            | Heq : _ +:+ _ = _ +:+ _ |- _ => apply stream_name_inj in Heq
            end; congruence).
  all: simplify_eq/=.
Qed.

Lemma registered_streams_lookup (names : list string) (handlers : gmap string Handler)
    (n ending : string) :
  ending ∈ stream_endings →
  n ∈ names ∨ handlers !! ("streams." +:+ n +:+ ending) = Some (stream_handler ending n) →
  foldl register_stream handlers names !! ("streams." +:+ n +:+ ending)
  = Some (stream_handler ending n).
Proof.
  intros Hending. revert handlers.
  induction names as [| name names IH]; intros handlers Hn; simpl.
  - destruct Hn as [Hn | Hn]; [by apply elem_of_nil in Hn | done].
  - apply IH. rewrite register_stream_lookup by done.
    destruct (decide (name = n)) as [-> | Hne]; [by right |].
    destruct Hn as [Hn | Hn]; [| by right].
    apply elem_of_cons in Hn as [-> | Hn]; [done | by left].
Qed.
End RegistryDomain.

(** X5: the methods the parent answers are the nine fixed ones and, for each
    declared stream, [streams.<name>.get], [.set], [.delete] and [.getGroup];
    no other method has a handler, in particular none of a stream that is not
    declared. *)
Theorem registered_methods `{Host} options (m : string) :
  is_Some (step_handlers options !! m) ↔
  m ∈ fixed_methods ∨ m ∈ stream_methods (getStreams (lockedData options)).
Proof.
  unfold step_handlers. rewrite registered_streams_is_Some.
  unfold register, fixed_methods.
  rewrite !lookup_insert_is_Some', lookup_empty, !elem_of_cons, elem_of_nil.
  split.
  - intros [Hm | Hm]; [left | by right].
    repeat destruct Hm as [Hm | Hm]; auto 12. by destruct Hm.
  - intros [Hm | Hm]; [left | by right].
    repeat destruct Hm as [Hm | Hm]; auto 12. done.
Qed.

(** X4: a request for a declared stream is carried out on the object of that
    very stream, with the [groupId], [id] and [data] of the payload; [get] and
    [getGroup] leave the store as it is. *)
Theorem stream_requests_reach_their_stream `{Host} options (inv : Invocation)
    (name : string) (fields : JsObj) :
  live options inv →
  name ∈ getStreams (lockedData options) →
  let g := obj_get fields "groupId" in
  let i := obj_get fields "id" in
  let d := obj_get fields "data" in
  let s := store (exec inv) in
  exec (on_event options inv (Request ("streams." +:+ name +:+ ".get") (VObj fields)))
    = perform (Reply ("streams." +:+ name +:+ ".get") (Normal (stream_get name g i s)))
        (exec inv) ∧
  exec (on_event options inv (Request ("streams." +:+ name +:+ ".set") (VObj fields)))
    = perform (Reply ("streams." +:+ name +:+ ".set") (Normal (stream_set name g i d s).2))
        (set_store (stream_set name g i d s).1 (exec inv)) ∧
  exec (on_event options inv (Request ("streams." +:+ name +:+ ".delete") (VObj fields)))
    = perform (Reply ("streams." +:+ name +:+ ".delete") (Normal (stream_delete name g i s).2))
        (set_store (stream_delete name g i s).1 (exec inv)) ∧
  exec (on_event options inv (Request ("streams." +:+ name +:+ ".getGroup") (VObj fields)))
    = perform (Reply ("streams." +:+ name +:+ ".getGroup")
                 (Normal (stream_getGroup name g s)))
        (exec inv).
Proof.
  intros Hlive Hname g i d s. subst g i d s.
  assert (∀ ending, ending ∈ stream_endings →
            step_handlers options !! ("streams." +:+ name +:+ ending)
            = Some (stream_handler ending name)) as Hreg.
  { intros ending Hending. unfold step_handlers.
    apply registered_streams_lookup; [done | by left]. }
  rewrite (live_request options inv _ _ _ Hlive (Hreg ".get" ltac:(set_solver))).
  rewrite (live_request options inv _ _ _ Hlive (Hreg ".set" ltac:(set_solver))).
  rewrite (live_request options inv _ _ _ Hlive (Hreg ".delete" ltac:(set_solver))).
  rewrite (live_request options inv _ _ _ Hlive (Hreg ".getGroup" ltac:(set_solver))).
  unfold stream_handler. simpl.
  unfold stream_get_handler, stream_set_handler, stream_delete_handler,
    stream_getGroup_handler, with_prop, reads, writes. simpl.
  repeat split.
  - by destruct (stream_set _ _ _ _ _).
  - by destruct (stream_delete _ _ _ _).
Qed.

(** ** What the handlers leave alone *)

Section Frames.
Context `{Host}.
Variable options : CallStepFileOptions.

Lemma forwarded_app (es1 es2 : list Effect) :
  forwarded (es1 ++ es2) = (forwarded es1 ++ forwarded es2)%list.
Proof. unfold forwarded. apply bind_app. Qed.

Lemma forwarded_stream_factories (names : list string) :
  forwarded (StreamFactory <$> names) = [].
Proof. induction names as [| name names IH]; [done |]. simpl. apply IH. Qed.

Lemma not_emit_forwards_nothing (m : string) (input : JsVal) :
  m ≠ "emit" → forwarded_for options (Request m input) = [].
Proof. intros Hm. simpl. by rewrite decide_False. Qed.

Ltac enter_frame :=
  intros input ex;
  unfold with_prop, reads, writes, calls;
  repeat match goal with
    | |- context [prop ?i ?k] => destruct (prop i k)
    end;
  repeat match goal with
    | |- context [let '(_, _) := ?p in _] => destruct p
    end;
  simpl effects; simpl store; simpl fst;
  rewrite ?forwarded_app;
  rewrite not_emit_forwards_nothing by (intros ?; simplify_eq/=);
  simpl; rewrite ?app_nil_r.

Ltac reading := enter_frame; by split.

Ltac writing :=
  enter_frame; (split; [done |]); intros Hnot; exfalso; apply Hnot; simpl;
  first [ left; set_solver | right; eexists; first [by left | by right] ].

Lemma close_handler_frame : handler_frame options "close" close_handler.
Proof. unfold close_handler. reading. Qed.

Lemma log_handler_frame : handler_frame options "log" log_handler.
Proof. unfold log_handler. reading. Qed.

Lemma state_get_handler_frame : handler_frame options "state.get" state_get_handler.
Proof. unfold state_get_handler. reading. Qed.

Lemma state_set_handler_frame : handler_frame options "state.set" state_set_handler.
Proof. unfold state_set_handler. writing. Qed.

Lemma state_delete_handler_frame : handler_frame options "state.delete" state_delete_handler.
Proof. unfold state_delete_handler. writing. Qed.

Lemma state_clear_handler_frame : handler_frame options "state.clear" state_clear_handler.
Proof. unfold state_clear_handler. writing. Qed.

Lemma state_getGroup_handler_frame :
  handler_frame options "state.getGroup" state_getGroup_handler.
Proof. unfold state_getGroup_handler. reading. Qed.

Lemma result_handler_frame : handler_frame options "result" result_handler.
Proof.
  intros input ex. unfold result_handler.
  rewrite not_emit_forwards_nothing by done. simpl. by rewrite app_nil_r.
Qed.

Lemma emit_handler_frame : handler_frame options "emit" (emit_handler options).
Proof.
  intros input ex. unfold emit_handler, with_prop, calls. simpl.
  destruct (prop input "topic") as [topic | e]; simpl.
  - destruct (isAllowedToEmit (step options) topic); simpl;
      rewrite forwarded_app; simpl; by rewrite ?app_nil_r.
  - by rewrite app_nil_r.
Qed.

Lemma register_stream_frame (handlers : gmap string Handler) (name : string) :
  map_Forall (handler_frame options) handlers →
  map_Forall (handler_frame options) (register_stream handlers name).
Proof.
  intros Hall. unfold register_stream, register.
  repeat apply map_Forall_insert_2; [.. | done].
  - unfold stream_getGroup_handler. reading.
  - unfold stream_delete_handler. writing.
  - unfold stream_set_handler. writing.
  - unfold stream_get_handler. reading.
Qed.

Lemma registered_streams_frame (names : list string) (handlers : gmap string Handler) :
  map_Forall (handler_frame options) handlers →
  map_Forall (handler_frame options) (foldl register_stream handlers names).
Proof.
  revert handlers. induction names as [| name names IH]; intros handlers Hall; [done |].
  simpl. by apply IH, register_stream_frame.
Qed.

Lemma step_handlers_frame : map_Forall (handler_frame options) (step_handlers options).
Proof.
  unfold step_handlers, register. apply registered_streams_frame.
  repeat apply map_Forall_insert_2; [.. | apply map_Forall_empty].
  - apply emit_handler_frame.
  - apply result_handler_frame.
  - apply state_getGroup_handler_frame.
  - apply state_clear_handler_frame.
  - apply state_delete_handler_frame.
  - apply state_set_handler_frame.
  - apply state_get_handler_frame.
  - apply log_handler_frame.
  - apply close_handler_frame.
Qed.

Lemma dispatch_frame (inv : Invocation) (m : string) (input : JsVal) :
  well_formed options inv →
  ¬ may_write (Request m input) →
  store (exec (dispatch m input inv)) = store (exec inv).
Proof.
  intros [Hhandlers _] Hnot. unfold dispatch.
  destruct (handlers inv !! m) as [fn |] eqn:Hfn; [| done].
  destruct Hhandlers as [Hempty | Hstep].
  { rewrite Hempty in Hfn. by rewrite lookup_empty in Hfn. }
  rewrite Hstep in Hfn.
  destruct (step_handlers_frame m fn Hfn input (exec inv)) as [_ Hstore].
  specialize (Hstore Hnot). by destruct (fn input (exec inv)).
Qed.

Lemma on_event_frame (inv : Invocation) (ev : ProcEvent) :
  well_formed options inv →
  ¬ may_write ev →
  store (exec (on_event options inv ev)) = store (exec inv).
Proof.
  intros Hwf Hnot. unfold on_event.
  destruct (phase inv), ev; try done.
  - simpl.
    match goal with
    | |- context [foldl _ ?ex ?names] =>
        by destruct (stream_factories names ex) as (_ & _ & -> & _)
    end.
  - by apply dispatch_frame.
  - unfold onStdout. by destruct (JSON_parse text).
  - unfold onProcessClose. by destruct (is_failure_code code).
  - unfold onProcessError. by case_bool_decide.
Qed.

Lemma live_forwards (inv : Invocation) (ev : ProcEvent) :
  live options inv → handled options ev →
  forwarded (effects (exec (on_event options inv ev)))
  = (forwarded (effects (exec inv)) ++ forwarded_for options ev)%list.
Proof.
  intros Hlive Hev. pose proof Hlive as [Hphase Hhandlers].
  destruct ev as [| | m input | text | text | |]; try done.
  - destruct Hev as [fn Hfn]. rewrite (live_request _ _ _ _ _ Hlive Hfn).
    destruct (step_handlers_frame m fn Hfn input (exec inv)) as [Hforwarded _].
    simpl effects. rewrite forwarded_app, Hforwarded. simpl. by rewrite app_nil_r.
  - unfold on_event. rewrite Hphase. unfold onStdout.
    destruct (JSON_parse text); simpl; rewrite forwarded_app; simpl; by rewrite !app_nil_r.
  - unfold on_event. rewrite Hphase. simpl. rewrite forwarded_app. simpl.
    by rewrite !app_nil_r.
Qed.

Lemma live_run_forwards (inv : Invocation) (evs : list ProcEvent) :
  live options inv → Forall (handled options) evs →
  forwarded (effects (exec (run options inv evs)))
  = (forwarded (effects (exec inv)) ++ (evs ≫= forwarded_for options))%list.
Proof.
  intros Hlive Hevs. induction evs as [| ev evs IH] using rev_ind.
  - simpl. by rewrite app_nil_r.
  - apply Forall_app in Hevs as [Hevs Hev]. apply Forall_cons in Hev as [Hev _].
    rewrite run_snoc.
    destruct (live_run options inv evs Hlive Hevs) as (Hlive' & _).
    rewrite (live_forwards _ _ Hlive' Hev), IH by done.
    rewrite bind_app. simpl. by rewrite app_nil_r, app_assoc.
Qed.

Lemma spawned_forwards_nothing (s : Store) (r : Runner) :
  getLanguageBasedRunner (filePath (step options)) = Normal r →
  forwarded (effects (exec (run options (callStepFile options s) [SpawnResolved]))) = [].
Proof.
  intros Hrunner. unfold run, callStepFile. rewrite Hrunner. simpl.
  unfold on_event, onSpawned. simpl.
  match goal with
  | |- context [foldl _ ?ex ?names] =>
      destruct (stream_factories names ex) as (_ & _ & _ & ->)
  end.
  simpl. apply forwarded_stream_factories.
Qed.
End Frames.

(** A live invocation to try the statements on. *)
Lemma sample_live :
  live (H := memory_host) order_options
    (run (H := memory_host) order_options
       (callStepFile (H := memory_host) order_options sample_store) [SpawnResolved]).
Proof. split; reflexivity. Qed.

(** X7: the events handed to the event manager are those of the worker's
    [emit] requests whose topic [isAllowedToEmit] accepts, each once and in
    the order the requests arrived; nothing else is ever forwarded. *)
Theorem emits_forwarded_in_order `{Host} options (s : Store) (r : Runner)
    (evs : list ProcEvent) :
  getLanguageBasedRunner (filePath (step options)) = Normal r →
  Forall (handled options) evs →
  forwarded (effects (exec (run options (callStepFile options s) (SpawnResolved :: evs))))
  = evs ≫= forwarded_for options.
Proof.
  intros Hrunner Hevs.
  change (SpawnResolved :: evs) with ([SpawnResolved] ++ evs)%list. rewrite run_app.
  destruct (spawned_live options s r Hrunner) as (Hlive & _).
  rewrite (live_run_forwards options _ evs Hlive Hevs).
  by rewrite (spawned_forwards_nothing options s r Hrunner).
Qed.

(** X8: a state or emit request whose payload is [null] or [undefined] makes
    the handler throw a TypeError before it calls the state manager, the
    printer or the event manager: the request is answered with the error and
    nothing else changes. *)
Theorem missing_payload_throws `{Host} options (inv : Invocation) (m : string)
    (input : JsVal) :
  live options inv →
  input = VNull ∨ input = VUndefined →
  m ∈ ["state.get"; "state.set"; "state.delete"; "state.clear"; "state.getGroup"; "emit"] →
  ∃ e, err_name e = "TypeError" ∧
       exec (on_event options inv (Request m input)) = perform (Reply m (Throw e)) (exec inv).
Proof.
  intros Hlive Hinput Hm.
  destruct (step_handlers_fixed options)
    as (Hemit & _ & Hget & Hset & Hdelete & Hclear & HgetGroup).
  repeat (apply elem_of_cons in Hm as [-> | Hm]);
    [| | | | | | by apply elem_of_nil in Hm].
  - rewrite (live_request options inv _ _ _ Hlive Hget).
    destruct Hinput as [-> | ->]; (eexists; split; [| reflexivity]; reflexivity).
  - rewrite (live_request options inv _ _ _ Hlive Hset).
    destruct Hinput as [-> | ->]; (eexists; split; [| reflexivity]; reflexivity).
  - rewrite (live_request options inv _ _ _ Hlive Hdelete).
    destruct Hinput as [-> | ->]; (eexists; split; [| reflexivity]; reflexivity).
  - rewrite (live_request options inv _ _ _ Hlive Hclear).
    destruct Hinput as [-> | ->]; (eexists; split; [| reflexivity]; reflexivity).
  - rewrite (live_request options inv _ _ _ Hlive HgetGroup).
    destruct Hinput as [-> | ->]; (eexists; split; [| reflexivity]; reflexivity).
  - rewrite (live_request options inv _ _ _ Hlive Hemit).
    destruct Hinput as [-> | ->]; (eexists; split; [| reflexivity]; reflexivity).
Qed.

Lemma missing_payload_throws_witness :
  ∃ e, err_name e = "TypeError" ∧
       exec (on_event (H := memory_host) order_options
               (run (H := memory_host) order_options
                  (callStepFile (H := memory_host) order_options sample_store)
                  [SpawnResolved])
               (Request "emit" VNull))
       = perform (Reply "emit" (Throw e))
           (exec (run (H := memory_host) order_options
                    (callStepFile (H := memory_host) order_options sample_store)
                    [SpawnResolved])).
Proof.
  apply (missing_payload_throws (H := memory_host) order_options _ "emit" VNull sample_live).
  - by left.
  - repeat constructor.
Defined.

(** X9: the command line of a Node worker: for a step file ending in [.js] or
    [.ts] the process is [node <dirname>/node/node-runner.js <step file>
    <envelope>], and when [_MOTIA_TEST_MODE] is exactly [true] it is
    [node -r ts-node/register <dirname>/node/node-runner.ts <step file>
    <envelope>]; it is made before anything else happens. *)
Theorem node_worker_command_line `{Host} options (s : Store) :
  endsWith (filePath (step options)) ".js" = true ∨
  endsWith (filePath (step options)) ".ts" = true →
  head (effects (exec (callStepFile options s)))
  = Some (NewProcessManager "node"
            (if bool_decide (MOTIA_TEST_MODE = Some "true") then
               ["-r"; "ts-node/register"; path_join [dirname; "node"; "node-runner.ts"];
                filePath (step options); JSON_stringify (invocation_envelope options)]
             else
               [path_join [dirname; "node"; "node-runner.js"];
                filePath (step options); JSON_stringify (invocation_envelope options)])).
Proof.
  intros Hnode. unfold callStepFile, getLanguageBasedRunner.
  assert (endsWith (filePath (step options)) ".py" = false) as ->.
  { destruct Hnode as [Hn | Hn];
      [apply (endsWith_exclusive _ ".js") | apply (endsWith_exclusive _ ".ts")]; done. }
  assert (endsWith (filePath (step options)) ".rb" = false) as ->.
  { destruct Hnode as [Hn | Hn];
      [apply (endsWith_exclusive _ ".js") | apply (endsWith_exclusive _ ".ts")]; done. }
  assert (endsWith (filePath (step options)) ".js"
          || endsWith (filePath (step options)) ".ts" = true) as ->.
  { destruct Hnode as [-> | ->]; [done | by rewrite orb_true_r]. }
  by case_bool_decide.
Qed.

Lemma node_worker_command_line_witness :
  head (effects (exec (callStepFile (H := memory_host) order_options sample_store)))
  = Some (NewProcessManager "node"
            ["/motia/core/dist/node/node-runner.js"; "steps/order.step.ts"; "{}"]).
Proof.
  apply (node_worker_command_line (H := memory_host) order_options sample_store).
  by right.
Defined.

(** ** The Node runner and the parent together *)

Section RunnerFacts.
Context `{Host}.
Variable options : CallStepFileOptions.

Lemma worker_events_app (acts1 acts2 : list WorkerAction) :
  worker_events (acts1 ++ acts2) = (worker_events acts1 ++ worker_events acts2)%list.
Proof. unfold worker_events. apply bind_app. Qed.

Lemma context_calls_emits (context : Context) (datas : list JsVal) (fin : Completion JsVal) :
  context_calls context (CallEmit <$> datas) fin = (SenderSend "emit" <$> datas, fin).
Proof.
  induction datas as [| d datas IH]; [done |].
  rewrite !fmap_cons. cbn [context_calls context_call]. by rewrite IH.
Qed.

Lemma worker_events_emits (datas : list JsVal) :
  worker_events (SenderSend "emit" <$> datas) = Request "emit" <$> datas.
Proof.
  induction datas as [| d datas IH]; [done |].
  rewrite !fmap_cons. change (worker_events (?a :: ?l)) with (worker_event a ++ worker_events l)%list.
  by rewrite IH.
Qed.

Lemma emits_handled (datas : list JsVal) :
  Forall (handled options) (Request "emit" <$> datas).
Proof.
  apply Forall_fmap, Forall_true. intros d.
  apply fixed_methods_handled. repeat constructor.
Qed.

(** The events the parent sees of a module without middleware whose handler
    only emits. *)
Lemma emitting_runner_events (path : string) (event : RunnerEvent) (module : UserModule)
    (handler : UserHandler) (cfg : ModuleConfig) (datas : list JsVal)
    (fin : Completion JsVal) :
  module_handler module = Function handler →
  module_config module = Some cfg →
  default [] (middleware cfg) = [] →
  handler (handler_arguments event) = (CallEmit <$> datas, fin) →
  worker_events (runTypescriptModule path event (Normal module))
  = ((Request "emit" <$> datas) ++
       match fin with
       | Normal v => [Request "result" v; ProcessClose (Some 0%Z)]
       | Throw e =>
           [Stderr (console_text "Error running TypeScript module:" (Some e));
            ProcessClose (Some 1%Z)]
       end)%list ∧
  handler_calls (runTypescriptModule path event (Normal module)) = 1%nat.
Proof.
  intros Hexport Hcfg Hmw Hrun. unfold runTypescriptModule.
  rewrite Hexport, Hcfg, Hmw.
  fold (runner_context event). fold (handler_arguments event).
  rewrite Hrun. simpl. rewrite context_calls_emits.
  unfold composeMiddleware. simpl.
  destruct fin as [v | e]; simpl.
  - rewrite ?worker_events_app, ?worker_events_emits. split; [done |].
    unfold handler_calls. simpl. f_equal. rewrite List.filter_app. simpl.
    rewrite app_nil_r. clear Hrun. induction datas as [| d datas IH]; [done | apply IH].
  - rewrite ?worker_events_app, ?worker_events_emits. split; [done |].
    unfold handler_calls. simpl. f_equal. rewrite List.filter_app. simpl.
    rewrite app_nil_r. clear Hrun. induction datas as [| d datas IH]; [done | apply IH].
Qed.

Lemma close_forwards (inv : Invocation) (code : option Z) :
  forwarded (effects (exec (on_event options inv (ProcessClose code))))
  = forwarded (effects (exec inv)).
Proof.
  unfold on_event. destruct (phase inv); try done.
  unfold onProcessClose. destruct (is_failure_code code); simpl;
    rewrite !forwarded_app; simpl; by rewrite !app_nil_r.
Qed.
End RunnerFacts.

(** X10: a TypeScript or JavaScript step without middleware whose handler
    emits some events and returns [v]: the handler is called once, with
    [(data, context)] or with [(context)] as [contextInFirstArg] says; the
    call of the parent is resolved with [v]; and the events forwarded are
    those of the handler's emits that the step may emit, in the handler's
    order. *)
Theorem node_step_round_trip `{Host} options (s : Store) (r : Runner) (event : RunnerEvent)
    (module : UserModule) (handler : UserHandler) (cfg : ModuleConfig)
    (datas : list JsVal) (v : JsVal) :
  getLanguageBasedRunner (filePath (step options)) = Normal r →
  module_handler module = Function handler →
  module_config module = Some cfg →
  default [] (middleware cfg) = [] →
  handler (handler_arguments event) = (CallEmit <$> datas, Normal v) →
  let acts := runTypescriptModule (filePath (step options)) event (Normal module) in
  let inv := run options (callStepFile options s) (SpawnResolved :: worker_events acts) in
  handler_calls acts = 1%nat ∧
  CallHandler (handler_arguments event) ∈ acts ∧
  promise (exec inv) = Resolved v ∧
  forwarded (effects (exec inv)) = (Request "emit" <$> datas) ≫= forwarded_for options.
Proof.
  intros Hrunner Hexport Hcfg Hmw Hrun acts inv. subst inv.
  destruct (emitting_runner_events (filePath (step options)) event module handler cfg
              datas (Normal v) Hexport Hcfg Hmw Hrun) as [Hevents Hcalls].
  fold acts in Hevents, Hcalls. rewrite Hevents.
  assert (Forall (handled options) ((Request "emit" <$> datas) ++ [Request "result" v]))
    as Hhandled.
  { apply Forall_app. split; [apply emits_handled |].
    constructor; [| done]. apply fixed_methods_handled. repeat constructor. }
  replace ((Request "emit" <$> datas) ++ [Request "result" v; ProcessClose (Some 0%Z)])%list
    with (((Request "emit" <$> datas) ++ [Request "result" v])
            ++ [ProcessClose (Some 0%Z)])%list
    by (by rewrite <- app_assoc).
  split; [done |]. split; [| split].
  - subst acts. unfold runTypescriptModule. rewrite Hexport, Hcfg, Hmw.
    fold (runner_context event). fold (handler_arguments event).
    rewrite Hrun. simpl. rewrite context_calls_emits. unfold composeMiddleware. simpl.
    apply elem_of_cons. right. apply elem_of_cons. by left.
  - fold (outcome options s
            (SpawnResolved :: ((Request "emit" <$> datas) ++ [Request "result" v])
               ++ [ProcessClose (Some 0%Z)])).
    rewrite (outcome_after_close options s r) by done. simpl.
    unfold last_result, latest_result. rewrite foldl_app. done.
  - change (SpawnResolved :: ((Request "emit" <$> datas) ++ [Request "result" v])
              ++ [ProcessClose (Some 0%Z)])
      with ((SpawnResolved :: ((Request "emit" <$> datas) ++ [Request "result" v]))
              ++ [ProcessClose (Some 0%Z)])%list.
    rewrite run_snoc, close_forwards.
    change (SpawnResolved :: ((Request "emit" <$> datas) ++ [Request "result" v]))
      with ([SpawnResolved] ++ ((Request "emit" <$> datas) ++ [Request "result" v]))%list.
    rewrite run_app.
    destruct (spawned_live options s r Hrunner) as (Hlive & _).
    rewrite (live_run_forwards options _ _ Hlive Hhandled).
    rewrite (spawned_forwards_nothing options s r Hrunner).
    rewrite bind_app. simpl. by rewrite app_nil_r.
Qed.

(** X11: when the handler of such a step throws after some emits, the runner
    sends no [result], prints the error and exits with code 1; the parent
    rejects the call with "Process exited with code 1", and the events
    emitted before the throw have been forwarded all the same. *)
Theorem node_step_crash `{Host} options (s : Store) (r : Runner) (event : RunnerEvent)
    (module : UserModule) (handler : UserHandler) (cfg : ModuleConfig)
    (datas : list JsVal) (e : JsError) :
  getLanguageBasedRunner (filePath (step options)) = Normal r →
  module_handler module = Function handler →
  module_config module = Some cfg →
  default [] (middleware cfg) = [] →
  handler (handler_arguments event) = (CallEmit <$> datas, Throw e) →
  let acts := runTypescriptModule (filePath (step options)) event (Normal module) in
  let inv := run options (callStepFile options s) (SpawnResolved :: worker_events acts) in
  (∀ v, Request "result" v ∉ worker_events acts) ∧
  promise (exec inv) = Rejected (RString "Process exited with code 1") ∧
  forwarded (effects (exec inv)) = (Request "emit" <$> datas) ≫= forwarded_for options.
Proof.
  intros Hrunner Hexport Hcfg Hmw Hrun acts inv. subst inv.
  destruct (emitting_runner_events (filePath (step options)) event module handler cfg
              datas (Throw e) Hexport Hcfg Hmw Hrun) as [Hevents _].
  fold acts in Hevents. rewrite Hevents.
  set (text := console_text "Error running TypeScript module:" (Some e)).
  assert (Forall (handled options) ((Request "emit" <$> datas) ++ [Stderr text]))
    as Hhandled.
  { apply Forall_app. split; [apply emits_handled | by repeat constructor]. }
  split; [| split].
  3: replace ((Request "emit" <$> datas) ++ [Stderr text; ProcessClose (Some 1%Z)])%list
       with (((Request "emit" <$> datas) ++ [Stderr text]) ++ [ProcessClose (Some 1%Z)])%list
       by (by rewrite <- app_assoc).
  2: replace ((Request "emit" <$> datas) ++ [Stderr text; ProcessClose (Some 1%Z)])%list
       with (((Request "emit" <$> datas) ++ [Stderr text]) ++ [ProcessClose (Some 1%Z)])%list
       by (by rewrite <- app_assoc).
  - intros v Hin. apply elem_of_app in Hin as [Hin | Hin].
    + apply list_elem_of_fmap in Hin as (d & Heq & _). discriminate.
    + apply list_elem_of_In in Hin. simpl in Hin.
      destruct Hin as [? | [? | []]]; discriminate.
  - fold (outcome options s
            (SpawnResolved :: ((Request "emit" <$> datas) ++ [Stderr text])
               ++ [ProcessClose (Some 1%Z)])).
    by rewrite (outcome_after_close options s r) by done.
  - change (SpawnResolved :: ((Request "emit" <$> datas) ++ [Stderr text])
              ++ [ProcessClose (Some 1%Z)])
      with ((SpawnResolved :: ((Request "emit" <$> datas) ++ [Stderr text]))
              ++ [ProcessClose (Some 1%Z)])%list.
    rewrite run_snoc, close_forwards.
    change (SpawnResolved :: ((Request "emit" <$> datas) ++ [Stderr text]))
      with ([SpawnResolved] ++ ((Request "emit" <$> datas) ++ [Stderr text]))%list.
    rewrite run_app.
    destruct (spawned_live options s r Hrunner) as (Hlive & _).
    rewrite (live_run_forwards options _ _ Hlive Hhandled).
    rewrite (spawned_forwards_nothing options s r Hrunner).
    rewrite bind_app. simpl. by rewrite app_nil_r.
Qed.

Lemma stream_requests_reach_their_stream_witness :
  "s" ∈ getStreams (lockedData order_options) ∧
  memory_stream_get "s" (VStr "g") (VStr "1")
    (store (exec (run (H := memory_host) order_options
                    (callStepFile (H := memory_host) order_options sample_store)
                    [SpawnResolved;
                     Request "streams.s.set"
                       (VObj [("groupId", VStr "g"); ("id", VStr "1");
                              ("data", VNum 5)])])))
  = VNum 5.
Proof.
  assert ("s" ∈ getStreams (lockedData order_options)) as Hin.
  { apply list_elem_of_In. simpl. by left. }
  split; [exact Hin |].
  change (run (H := memory_host) order_options
            (callStepFile (H := memory_host) order_options sample_store)
            [SpawnResolved;
             Request "streams.s.set"
               (VObj [("groupId", VStr "g"); ("id", VStr "1"); ("data", VNum 5)])])
    with (on_event (H := memory_host) order_options
            (run (H := memory_host) order_options
               (callStepFile (H := memory_host) order_options sample_store) [SpawnResolved])
            (Request ("streams." +:+ "s" +:+ ".set")
               (VObj [("groupId", VStr "g"); ("id", VStr "1"); ("data", VNum 5)]))).
  rewrite (proj1 (proj2 (stream_requests_reach_their_stream (H := memory_host) order_options _
                           "s" [("groupId", VStr "g"); ("id", VStr "1"); ("data", VNum 5)]
                           sample_live Hin))).
  reflexivity.
Defined.

Lemma emits_forwarded_in_order_witness :
  forwarded (effects (exec (run (H := memory_host) order_options
                              (callStepFile (H := memory_host) order_options sample_store)
                              [SpawnResolved;
                               Request "emit" (VObj [("topic", VStr "c"); ("n", VNum 1)]);
                               Request "emit" (VObj [("topic", VStr "zz")]);
                               Request "emit" VNull;
                               Request "emit" (VObj [("topic", VStr "b"); ("n", VNum 2)])])))
  = [(emitted_event order_options (VObj [("topic", VStr "c"); ("n", VNum 1)]),
      "steps/order.step.ts");
     (emitted_event order_options (VObj [("topic", VStr "b"); ("n", VNum 2)]),
      "steps/order.step.ts")].
Proof.
  refine (eq_trans
            (emits_forwarded_in_order (H := memory_host) order_options sample_store
               {| runner := "/motia/core/dist/node/node-runner.js"; command := "node";
                  args := [] |}
               [Request "emit" (VObj [("topic", VStr "c"); ("n", VNum 1)]);
                Request "emit" (VObj [("topic", VStr "zz")]);
                Request "emit" VNull;
                Request "emit" (VObj [("topic", VStr "b"); ("n", VNum 2)])] _ _) _).
  - reflexivity.
  - show_handled.
  - reflexivity.
Defined.

Lemma node_step_round_trip_witness :
  promise (exec (run (H := memory_host) order_options
                   (callStepFile (H := memory_host) order_options sample_store)
                   (SpawnResolved ::
                      worker_events (runTypescriptModule "steps/order.step.ts" sample_event
                                       (Normal emitting_module)))))
  = Resolved (VNum 7) ∧
  forwarded (effects (exec (run (H := memory_host) order_options
                              (callStepFile (H := memory_host) order_options sample_store)
                              (SpawnResolved ::
                                 worker_events
                                   (runTypescriptModule "steps/order.step.ts" sample_event
                                      (Normal emitting_module))))))
  = [(emitted_event order_options (VObj [("topic", VStr "b"); ("data", VNum 1)]),
      "steps/order.step.ts")].
Proof.
  pose proof (node_step_round_trip (H := memory_host) order_options sample_store
                {| runner := "/motia/core/dist/node/node-runner.js"; command := "node";
                   args := [] |}
                sample_event emitting_module _ {| middleware := None |}
                [VObj [("topic", VStr "zz"); ("data", VNull)];
                 VObj [("topic", VStr "b"); ("data", VNum 1)]] (VNum 7)
                eq_refl eq_refl eq_refl eq_refl eq_refl) as (_ & _ & Hpromise & Hforwarded).
  split; [exact Hpromise | exact Hforwarded].
Defined.

Lemma node_step_crash_witness :
  promise (exec (run (H := memory_host) order_options
                   (callStepFile (H := memory_host) order_options sample_store)
                   (SpawnResolved ::
                      worker_events (runTypescriptModule "steps/order.step.ts" sample_event
                                       (Normal crashing_module)))))
  = Rejected (RString "Process exited with code 1") ∧
  forwarded (effects (exec (run (H := memory_host) order_options
                              (callStepFile (H := memory_host) order_options sample_store)
                              (SpawnResolved ::
                                 worker_events
                                   (runTypescriptModule "steps/order.step.ts" sample_event
                                      (Normal crashing_module))))))
  = [(emitted_event order_options (VObj [("topic", VStr "b"); ("data", VNum 1)]),
      "steps/order.step.ts")].
Proof.
  pose proof (node_step_crash (H := memory_host) order_options sample_store
                {| runner := "/motia/core/dist/node/node-runner.js"; command := "node";
                   args := [] |}
                sample_event crashing_module _ {| middleware := None |}
                [VObj [("topic", VStr "b"); ("data", VNum 1)]] (Error "boom")
                eq_refl eq_refl eq_refl eq_refl eq_refl) as (_ & Hpromise & Hforwarded).
  split; [exact Hpromise | exact Hforwarded].
Defined.


(** X13: a module that exports a handler but no [config] fails in the Node
    runner: reading [module.config.middleware] throws, the handler is never
    called, no request is sent, the runner exits with code 1 and the parent
    rejects the call with "Process exited with code 1". *)
Theorem configless_module_fails `{Host} options (s : Store) (r : Runner)
    (event : RunnerEvent) (module : UserModule) (handler : UserHandler) :
  getLanguageBasedRunner (filePath (step options)) = Normal r →
  module_handler module = Function handler →
  module_config module = None →
  let acts := runTypescriptModule (filePath (step options)) event (Normal module) in
  handler_calls acts = 0%nat ∧
  (∀ method params, SenderSend method params ∉ acts) ∧
  (∃ e, err_name e = "TypeError" ∧
        acts = [SenderInit; ConsoleError "Error running TypeScript module:" (Some e); Exit 1]) ∧
  outcome options s (SpawnResolved :: worker_events acts)
    = Rejected (RString "Process exited with code 1").
Proof.
  intros Hrunner Hexport Hcfg acts. subst acts. unfold runTypescriptModule.
  rewrite Hexport, Hcfg. simpl. split; [done |]. split; [| split].
  - intros method params Hin. apply list_elem_of_In in Hin. simpl in Hin.
    destruct Hin as [? | [? | [? | []]]]; discriminate.
  - eexists; split; [| reflexivity]; reflexivity.
  - refine (outcome_after_close options s r [Stderr _] (Some 1%Z) Hrunner _).
    by repeat constructor.
Qed.

Lemma configless_module_fails_witness :
  outcome (H := memory_host) order_options sample_store
    (SpawnResolved ::
       worker_events (runTypescriptModule "steps/order.step.ts" sample_event
                        (Normal configless_module)))
  = Rejected (RString "Process exited with code 1").
Proof.
  exact (proj2 (proj2 (proj2
           (configless_module_fails (H := memory_host) order_options sample_store
              {| runner := "/motia/core/dist/node/node-runner.js"; command := "node";
                 args := [] |}
              sample_event configless_module _ eq_refl eq_refl eq_refl)))).
Defined.

(** X14: the [get] and [delete] of a stream in the Node runner's context send
    the [id] only, while the parent reads [groupId] and [id] from the payload:
    the request reaches the stream of that name with an [undefined]
    [groupId]. *)
Theorem worker_stream_get_has_no_group `{Host} options (inv : Invocation)
    (name : string) (id data : JsVal) :
  live options inv →
  name ∈ getStreams (lockedData options) →
  exec (on_event options inv
          (Request (stream_method name OpGet) (stream_params OpGet id data)))
    = perform (Reply (stream_method name OpGet)
                 (Normal (stream_get name VUndefined id (store (exec inv)))))
        (exec inv) ∧
  exec (on_event options inv
          (Request (stream_method name OpDelete) (stream_params OpDelete id data)))
    = perform (Reply (stream_method name OpDelete)
                 (Normal (stream_delete name VUndefined id (store (exec inv))).2))
        (set_store (stream_delete name VUndefined id (store (exec inv))).1 (exec inv)).
Proof.
  intros Hlive Hname.
  assert (∀ ending, ending ∈ stream_endings →
            step_handlers options !! ("streams." +:+ name +:+ ending)
            = Some (stream_handler ending name)) as Hreg.
  { intros ending Hending. unfold step_handlers.
    apply registered_streams_lookup; [done | by left]. }
  change (stream_method name OpGet) with ("streams." +:+ name +:+ ".get").
  change (stream_method name OpDelete) with ("streams." +:+ name +:+ ".delete").
  rewrite (live_request options inv _ _ _ Hlive (Hreg ".get" ltac:(set_solver))).
  rewrite (live_request options inv _ _ _ Hlive (Hreg ".delete" ltac:(set_solver))).
  unfold stream_handler. simpl.
  unfold stream_get_handler, stream_delete_handler, with_prop, reads, writes. simpl.
  split; [done |]. by destruct (stream_delete _ _ _ _).
Qed.

Lemma worker_stream_get_has_no_group_witness :
  last (effects (exec (run (H := memory_host) order_options
                         (callStepFile (H := memory_host) order_options
                            {| flow_state := [];
                               stream_items := [("s", VStr "g", VStr "1", VNum 5)] |})
                         [SpawnResolved;
                          Request "streams.s.get" (VObj [("id", VStr "1")])])))
  = Some (Reply "streams.s.get" (Normal VNull)).
Proof.
  assert ("s" ∈ getStreams (lockedData order_options)) as Hin.
  { apply list_elem_of_In. simpl. by left. }
  assert (live (H := memory_host) order_options
            (run (H := memory_host) order_options
               (callStepFile (H := memory_host) order_options
                  {| flow_state := [];
                     stream_items := [("s", VStr "g", VStr "1", VNum 5)] |})
               [SpawnResolved])) as Hlive.
  { split; reflexivity. }
  change (run (H := memory_host) order_options
            (callStepFile (H := memory_host) order_options
               {| flow_state := []; stream_items := [("s", VStr "g", VStr "1", VNum 5)] |})
            [SpawnResolved; Request "streams.s.get" (VObj [("id", VStr "1")])])
    with (on_event (H := memory_host) order_options
            (run (H := memory_host) order_options
               (callStepFile (H := memory_host) order_options
                  {| flow_state := [];
                     stream_items := [("s", VStr "g", VStr "1", VNum 5)] |})
               [SpawnResolved])
            (Request (stream_method "s" OpGet) (stream_params OpGet (VStr "1") VNull))).
  rewrite (proj1 (worker_stream_get_has_no_group (H := memory_host) order_options _
                    "s" (VStr "1") VNull Hlive Hin)).
  reflexivity.
Defined.

(** ** The Python environment *)

Lemma strip_prefix_append (pattern rest : string) :
  strip_prefix pattern (pattern +:+ rest) = Some rest.
Proof.
  induction pattern as [| c pattern IH]; simpl.
  - by destruct rest.
  - by rewrite decide_True.
Qed.

Lemma replace_unfold (s pattern replacement : string) :
  replace s pattern replacement =
  match strip_prefix pattern s with
  | Some rest => replacement +:+ rest
  | None =>
      match s with
      | EmptyString => EmptyString
      | String c s' => String c (replace s' pattern replacement)
      end
  end.
Proof. by destruct s. Qed.

Lemma replace_prefix (pattern rest replacement : string) :
  replace (pattern +:+ rest) pattern replacement = replacement +:+ rest.
Proof. by rewrite replace_unfold, strip_prefix_append. Qed.

(** The variables an activation sets when the environment is present. *)
Lemma activation_environment_lookup `{Platform} (config : VenvConfig) (p : NodeProcess) :
  existsSync (venvPath config) = true →
  env (activatePythonVenv config p) !! "PATH"
    = Some (venvBinPath config +:+ delimiter +:+ env_text (env p !! "PATH")) ∧
  env (activatePythonVenv config p) !! "VIRTUAL_ENV" = Some (venvPath config) ∧
  env (activatePythonVenv config p) !! "PYTHON_SITE_PACKAGES"
    = Some (sitePackagesPath config) ∧
  env (activatePythonVenv config p) !! "PYTHONHOME" = None.
Proof.
  unfold activatePythonVenv. intros ->. simpl. repeat split.
  - rewrite lookup_delete_ne by done. rewrite !lookup_insert_ne by done.
    by rewrite lookup_insert_eq.
  - rewrite lookup_delete_ne by done. rewrite lookup_insert_ne by done.
    by rewrite lookup_insert_eq.
  - rewrite lookup_delete_ne by done. by rewrite lookup_insert_eq.
  - by rewrite lookup_delete_eq.
Qed.

(** X15: what an activation does to [process.env].  With the virtual
    environment present, [PATH] becomes the [bin] directory of the
    environment, the path delimiter and the old [PATH] (the text [undefined]
    when it was unset), [VIRTUAL_ENV] and [PYTHON_SITE_PACKAGES] are set and
    [PYTHONHOME] is removed; without it the variables are untouched and two
    errors are logged.  No other variable is ever changed. *)
Theorem activation_environment `{Platform} (config : VenvConfig) (p : NodeProcess) :
  (existsSync (venvPath config) = true →
     env (activatePythonVenv config p) !! "PATH"
       = Some (venvBinPath config +:+ delimiter +:+ env_text (env p !! "PATH")) ∧
     env (activatePythonVenv config p) !! "VIRTUAL_ENV" = Some (venvPath config) ∧
     env (activatePythonVenv config p) !! "PYTHON_SITE_PACKAGES"
       = Some (sitePackagesPath config) ∧
     env (activatePythonVenv config p) !! "PYTHONHOME" = None) ∧
  (existsSync (venvPath config) = false →
     env (activatePythonVenv config p) = env p ∧
     logged (activatePythonVenv config p)
       = (logged p ++
            [LogInfo ["Activating Python environment"];
             LogError ["Python virtual environment not found in python_modules/"];
             LogError ["Please run `motia install` to create a new virtual environment"]])%list) ∧
  (∀ k, k ∉ ["PATH"; "VIRTUAL_ENV"; "PYTHON_SITE_PACKAGES"; "PYTHONHOME"] →
     env (activatePythonVenv config p) !! k = env p !! k).
Proof.
  split; [| split].
  - apply activation_environment_lookup.
  - unfold activatePythonVenv. intros ->. simpl. split; [done |]. by rewrite <- app_assoc.
  - intros k Hk. unfold activatePythonVenv.
    destruct (existsSync (venvPath config)); [| done]. simpl.
    rewrite lookup_delete_ne by set_solver. by rewrite !lookup_insert_ne by set_solver.
Qed.

Lemma activation_environment_witness :
  existsSync (Platform := sample_platform) (venvPath (H := sample_platform) sample_venv) = true ∧
  env (activatePythonVenv (H := sample_platform) sample_venv sample_process) !! "PATH"
    = Some "/app/python_modules/bin:/usr/bin" ∧
  env (activatePythonVenv (H := sample_platform) sample_venv sample_process) !! "PYTHONHOME"
    = None ∧
  env (activatePythonVenv (H := sample_platform) sample_venv sample_process) !! "HOME"
    = Some "/root".
Proof.
  destruct (activation_environment (H := sample_platform) sample_venv sample_process)
    as (Hpresent & _ & Hother).
  destruct (Hpresent eq_refl) as (Hpath & _ & _ & Hhome).
  split; [reflexivity | split; [exact Hpath | split; [exact Hhome |]]].
  rewrite (Hother "HOME"); [reflexivity |].
  intros Hin. apply list_elem_of_In in Hin. simpl in Hin.
  destruct Hin as [? | [? | [? | [? | []]]]]; discriminate.
Defined.

(** X16: an activation is not idempotent on [PATH]: activating twice puts the
    [bin] directory of the environment twice in front of the old [PATH]; every
    other variable is as after one activation. *)
Theorem activation_twice `{Platform} (config : VenvConfig) (p : NodeProcess) :
  existsSync (venvPath config) = true →
  env (activatePythonVenv config (activatePythonVenv config p))
  = <["PATH" := venvBinPath config +:+ delimiter +:+ venvBinPath config +:+ delimiter
                  +:+ env_text (env p !! "PATH")]>
      (env (activatePythonVenv config p)).
Proof.
  intros Hpresent.
  destruct (activation_environment_lookup config p Hpresent) as (Hpath & Hvenv & Hsite & Hhome).
  unfold activatePythonVenv at 1. rewrite Hpresent. simpl.
  rewrite Hpath. simpl. apply map_eq. intros k.
  destruct (decide (k = "PYTHONHOME")) as [-> | Hk1].
  { rewrite lookup_delete_eq, lookup_insert_ne by done. by rewrite Hhome. }
  rewrite lookup_delete_ne by done.
  destruct (decide (k = "PYTHON_SITE_PACKAGES")) as [-> | Hk2].
  { rewrite lookup_insert_eq, lookup_insert_ne by done. by rewrite Hsite. }
  rewrite lookup_insert_ne by done.
  destruct (decide (k = "VIRTUAL_ENV")) as [-> | Hk3].
  { rewrite lookup_insert_eq, lookup_insert_ne by done. by rewrite Hvenv. }
  rewrite lookup_insert_ne by done.
  destruct (decide (k = "PATH")) as [-> | Hk4].
  { by rewrite !lookup_insert_eq. }
  by rewrite !lookup_insert_ne by done.
Qed.

Lemma activation_twice_witness :
  env (activatePythonVenv (H := sample_platform) sample_venv
         (activatePythonVenv (H := sample_platform) sample_venv sample_process)) !! "PATH"
  = Some "/app/python_modules/bin:/app/python_modules/bin:/usr/bin".
Proof.
  rewrite (activation_twice (H := sample_platform) sample_venv sample_process eq_refl).
  reflexivity.
Defined.

(** X17: what an activation logs when the environment is present: without
    [isVerbose] nothing but "Activating Python environment"; with it, also the
    Python executable and the site-packages directory, where a path that
    starts with the project directory is shown with [<projectDir>] in its
    place. *)
Theorem activation_log `{Platform} (config : VenvConfig) (p : NodeProcess) :
  existsSync (venvPath config) = true →
  (default false (isVerbose config) = false →
     logged (activatePythonVenv config p)
       = (logged p ++ [LogInfo ["Activating Python environment"]])%list) ∧
  (∀ python packages,
     isVerbose config = Some true →
     pythonPath config = baseDir config +:+ python →
     sitePackagesPath config = baseDir config +:+ packages →
     logged (activatePythonVenv config p)
       = (logged p ++
            [LogInfo ["Activating Python environment"];
             LogInfo ["Using Python"; "<projectDir>" +:+ python];
             LogInfo ["Site-packages path"; "<projectDir>" +:+ packages]])%list).
Proof.
  intros Hpresent. unfold activatePythonVenv. rewrite Hpresent. split.
  - by intros ->.
  - intros python packages -> Hpython Hpackages. simpl.
    unfold relativePath. rewrite Hpython, Hpackages, !replace_prefix.
    by rewrite <- app_assoc.
Qed.

Lemma activation_log_witness :
  logged (activatePythonVenv (H := sample_platform) sample_venv sample_process)
  = [LogInfo ["Activating Python environment"];
     LogInfo ["Using Python"; "<projectDir>/python_modules/bin/python"];
     LogInfo ["Site-packages path";
              "<projectDir>/python_modules/lib/python3.13/site-packages"]].
Proof.
  exact (proj2 (activation_log (H := sample_platform) sample_venv sample_process eq_refl)
           "/python_modules/bin/python" "/python_modules/lib/python3.13/site-packages"
           eq_refl eq_refl eq_refl).
Defined.
